(** * rundmcmc.partition: the Partition class of the chain

    A shallow embedding of [src/rundmcmc/partition.py].  A Partition object
    owns an assignment list, a parts dictionary and a cache; [merge] builds a
    child from a parent and a dictionary of flips.  Python dictionaries are
    finite maps, sets of node ids are finite sets of integers, and the
    exceptions the code can raise are values of an error monad.  The one
    object the code mutates behind the caller's back, the parent's parts
    dictionary, is threaded explicitly: [merge] returns the parent as it is
    after the call together with the outcome. *)

From stdpp Require Import base gmap sets list strings pretty.

Open Scope Z_scope.

Set Warnings "-clear-no-such-hyp".

(** ** Python values

    Part labels, original node identifiers, node attributes and updater
    results are Python objects; the ones that occur here are integers,
    strings and [None] (the result of [dict.get] on a missing key). *)

Inductive value := VNone | VInt (z : Z) | VStr (s : string).

#[global] Instance value_eq_dec : EqDecision value.
Proof. solve_decision. Defined.

Definition value_to_sum (v : value) : unit + (Z + string) :=
  match v with
  | VNone => inl tt
  | VInt z => inr (inl z)
  | VStr s => inr (inr s)
  end.

Definition value_of_sum (x : unit + (Z + string)) : value :=
  match x with
  | inl _ => VNone
  | inr (inl z) => VInt z
  | inr (inr s) => VStr s
  end.

#[global] Instance value_countable : Countable value.
Proof. apply (inj_countable' value_to_sum value_of_sum). by intros []. Defined.

(** ** Exceptions *)

Inductive exn := IndexError | KeyError | NameError | AttributeError.

#[global] Instance exn_eq_dec : EqDecision exn.
Proof. solve_decision. Defined.

Inductive result (A : Type) := Ok (a : A) | Raise (e : exn).
Arguments Ok {A} a.
Arguments Raise {A} e.

#[global] Instance result_eq_dec `{EqDecision A} : EqDecision (result A).
Proof. solve_decision. Defined.

#[global] Instance result_ret : MRet result := λ A a, Ok a.
#[global] Instance result_bind : MBind result := λ A B k r,
  match r with
  | Ok a => k a
  | Raise e => Raise e
  end.

Definition is_Ok {A} (r : result A) : Prop := ∃ a, r = Ok a.
Definition is_Raise {A} (r : result A) : Prop := ∃ e, r = Raise e.

(** ** Python lists

    [l[i]] and [l[i] = x] accept [-len(l) <= i < len(l)]; a negative index
    counts from the end; anything else raises IndexError. *)

Definition py_index (n : nat) (i : Z) : result nat :=
  if decide (0 ≤ i < Z.of_nat n) then Ok (Z.to_nat i)
  else if decide (- Z.of_nat n ≤ i < 0) then Ok (Z.to_nat (Z.of_nat n + i))
  else Raise IndexError.

Definition list_getitem {A} (l : list A) (i : Z) : result A :=
  k ← py_index (length l) i;
  match l !! k with
  | Some x => Ok x
  | None => Raise IndexError
  end.

Definition list_setitem {A} (l : list A) (i : Z) (x : A) : result (list A) :=
  k ← py_index (length l) i;
  Ok (<[k := x]> l).

(** ** The graph (networkx)

    A networkx graph lists its nodes in insertion order, each with an
    attribute dictionary, and its edges as pairs of nodes. *)

Record NxGraph := {
  nx_nodes : list (value * gmap string value);
  nx_edges : list (value * value)
}.

(** The graph a Partition keeps: node [i] is position [i] of [nodes]. *)
Record Graph := {
  nodes : list (gmap string value);
  edges : list (Z * Z)
}.

Module networkx.

Fixpoint position (v : value) (ns : list (value * gmap string value)) : option nat :=
  match ns with
  | [] => None
  | nd :: rest => if decide (nd.1 = v) then Some 0%nat else S <$> position v rest
  end.

(** [convert_node_labels_to_integers(G, label_attribute=a)]: nodes are
    renumbered 0, 1, ... in the graph's order, attributes are kept, and
    the old label is stored under [a].  An edge of a networkx graph always
    joins two of its nodes. *)
Definition convert_node_labels_to_integers (g : NxGraph) (label_attribute : string) : Graph :=
  {| nodes := (λ nd, <[label_attribute := nd.1]> nd.2) <$> nx_nodes g;
     edges := omap (λ e, u ← position e.1 (nx_nodes g);
                         v ← position e.2 (nx_nodes g);
                         Some (Z.of_nat u, Z.of_nat v)) (nx_edges g) |}.

(** [get_node_attributes(G, name)]: the dictionary from the nodes that
    carry attribute [name] to its value, given by its lookup. *)
Definition get_node_attributes (g : Graph) (name : string) (n : nat) : option value :=
  d ← nodes g !! n; d !! name.

End networkx.

(** ** Flows, parts and the Partition object *)

Record Flow := { flow_in : gset Z; flow_out : gset Z }.

Inductive EdgeChange := NewlyCut | NewlyUncut | Unchanged.

(** [self.parts] is a [collections.defaultdict(set)] on a root and a plain
    dict on a child (line 99). *)
Record PartsDict := {
  is_defaultdict : bool;
  items : gmap value (gset Z)
}.

(** The attributes of a Partition object that an updater can read.
    [parent] holds the parent's attributes as the construction of the child
    leaves them; [flips], [flows] and [edge_flows] are [None] on a root. *)
#[warnings="-register-all"] Inductive PState := mkPState {
  graph : Graph;
  assignment : list value;
  parent : option PState;
  flips : option (list (Z * value));
  flows : option (gmap value Flow);
  edge_flows : option (list (Z * Z * EdgeChange));
  max_edge_cuts : value;
  parts : PartsDict
}.

(** Updaters are pure functions of the partition they are given (its graph,
    assignment, parts, flows and ancestors); the registry is a dict. *)
Record Partition := {
  state : PState;
  updaters : gmap string (PState → value);
  _cache : gmap string value
}.

(** The object [p] with [d] for its parts dictionary. *)
Definition set_parts (d : PartsDict) (p : Partition) : Partition :=
  {| state := mkPState (graph (state p)) (assignment (state p)) (parent (state p))
                (flips (state p)) (flows (state p)) (edge_flows (state p))
                (max_edge_cuts (state p)) d;
     updaters := updaters p;
     _cache := _cache p |}.

(** [self.max_edge_cuts = v]. *)
Definition set_max_edge_cuts (v : value) (s : PState) : PState :=
  mkPState (graph s) (assignment s) (parent s) (flips s) (flows s) (edge_flows s) v (parts s).

(** [d[k]] on the parts dictionary: a defaultdict inserts and returns a
    fresh empty set for a missing key, a plain dict raises KeyError. *)
Definition parts_getitem (d : PartsDict) (k : value) : PartsDict * result (gset Z) :=
  match items d !! k with
  | Some s => (d, Ok s)
  | None =>
      if is_defaultdict d
      then ({| is_defaultdict := true; items := <[k := ∅]> (items d) |}, Ok ∅)
      else (d, Raise KeyError)
  end.

(** ** rundmcmc.updaters (not among the sources) *)

Module rundmcmc_updaters.

(** The flow of a label no node has entered or left yet. *)
Definition create_flow : Flow := {| flow_in := ∅; flow_out := ∅ |}.

Definition flow_at (fl : gmap value Flow) (part : value) : Flow :=
  default create_flow (fl !! part).

(** Record [node] as leaving, respectively entering, [part]. *)
Definition add_out (node : Z) (part : value) (fl : gmap value Flow) : gmap value Flow :=
  <[part := {| flow_in := flow_in (flow_at fl part);
               flow_out := {[node]} ∪ flow_out (flow_at fl part) |}]> fl.

Definition add_in (node : Z) (part : value) (fl : gmap value Flow) : gmap value Flow :=
  <[part := {| flow_in := {[node]} ∪ flow_in (flow_at fl part);
               flow_out := flow_out (flow_at fl part) |}]> fl.

(** The loop of [flows_from_changes] over the items of the flips. *)
Fixpoint flows_loop (old : list value) (fs : list (Z * value)) (fl : gmap value Flow)
  : result (gmap value Flow) :=
  match fs with
  | [] => Ok fl
  | (node, newLabel) :: rest =>
      oldLabel ← list_getitem old node;
      if decide (oldLabel = newLabel) then flows_loop old rest fl
      else flows_loop old rest (add_in node newLabel (add_out node oldLabel fl))
  end.

(** Modelled from the spec: [flows_from_changes] of rundmcmc.updaters is
    missing from the sources.  Spec 4.2: for each node of the flips, with
    oldLabel the prior assignment of the node and newLabel its flip, an
    equal pair contributes nothing, otherwise the node is recorded as
    leaving oldLabel and entering newLabel; the result is grouped by
    affected label.  The prior assignment is the parent's list, read by
    list indexing. *)
Definition flows_from_changes (old : list value) (fs : list (Z * value))
  : result (gmap value Flow) :=
  flows_loop old fs ∅.

(** Whether the two endpoints of an edge carry different labels (spec 3,
    Edge Flow Record). *)
Definition edge_cut (a : list value) (e : Z * Z) : bool :=
  bool_decide (list_getitem a e.1 ≠ list_getitem a e.2).

Definition classify (was now : bool) : EdgeChange :=
  match was, now with
  | false, true => NewlyCut
  | true, false => NewlyUncut
  | _, _ => Unchanged
  end.

(** Modelled from the spec: [compute_edge_flows] of rundmcmc.updaters is
    missing from the sources.  Spec 4.2: each edge with a flipped endpoint
    is classified as newly cut, newly uncut or unchanged relative to the
    parent; edges with no flipped endpoint are skipped.  The spec speaks of
    flipped nodes: a key of the flips that is no node of the graph is the
    endpoint of no edge here. *)
Definition compute_edge_flows (g : Graph) (old new : list value) (fs : list (Z * value))
  : list (Z * Z * EdgeChange) :=
  (λ e, (e, classify (edge_cut old e) (edge_cut new e)))
    <$> filter (λ e : Z * Z, e.1 ∈ fs.*1 ∨ e.2 ∈ fs.*1) (edges g).

End rundmcmc_updaters.

(** ** rundmcmc.proposals (not among the sources) *)

Module rundmcmc_proposals.

(** Modelled from the spec: [max_edge_cuts] of rundmcmc.proposals is
    missing from the sources.  Spec 6: a scalar computed from the
    partition's edge classification (for each edge of the graph, whether
    it is cut); the statistic itself is the parameter [stat]. *)
Definition max_edge_cuts (stat : list (Z * Z * bool) → value) (g : Graph) (a : list value)
  : value :=
  stat ((λ e, (e, rundmcmc_updaters.edge_cut a e)) <$> edges g).

End rundmcmc_proposals.

(** ** Data of the scenarios *)

(** A statistic to run the class with: the number of cut edges. *)
Definition count_cut (cls : list (Z * Z * bool)) : value :=
  VInt (Z.of_nat (length (filter (λ c : Z * Z * bool, c.2 = true) cls))).

Definition district (lbl : string) : gmap string value := {["district" := VStr lbl]}.

(** The path 0 - 1 - 2 - 3 with every node in district A. *)
Definition path4 : NxGraph :=
  {| nx_nodes := [(VInt 0, district "A"); (VInt 1, district "A");
                  (VInt 2, district "A"); (VInt 3, district "A")];
     nx_edges := [(VInt 0, VInt 1); (VInt 1, VInt 2); (VInt 2, VInt 3)] |}.


(** The graph without nodes. *)
Definition empty_graph : NxGraph := {| nx_nodes := []; nx_edges := [] |}.

(** A registry with one updater, the number of nodes. *)
Definition population_registry : gmap string (PState → value) :=
  {["population" := λ self, VInt (Z.of_nat (length (assignment self)))]}.

(** ** class Partition *)

Section partition.

(** The statistic behind [rundmcmc_proposals.max_edge_cuts]. *)
Variable edge_cut_statistic : list (Z * Z * bool) → value.

(** [__len__]: [len(self.parts)]. *)
Definition __len__ (self : Partition) : nat := size (items (parts (state self))).

(** Lines 80-83: [str] of a length is its decimal numeral, and the plural
    takes an "s" from two parts on. *)
Definition __repr__ (self : Partition) : string :=
  let number_of_parts := __len__ self in
  let s := if decide (1 < number_of_parts)%nat then "s" else "" in
  "Partition of a graph into " +:+ pretty number_of_parts +:+ " part" +:+ s.

(** Truth value of the [parent] argument in [if parent:]: [None] is false,
    and an object with [__len__] and no [__bool__] is true iff its length
    is not zero. *)
Definition truthy (p : option Partition) : bool :=
  match p with
  | None => false
  | Some q => negb (Nat.eqb (__len__ q) 0)
  end.

(** Truth value of the [assignment] argument in [if assignment:]. *)
Definition truthy_name (a : option string) : bool :=
  match a with
  | None => false
  | Some name => negb (String.eqb name "")
  end.

(** Lines 61-63: [parts[part].add(node)] for every [node, part] of
    [enumerate(self.assignment)], on a fresh [defaultdict(set)]. *)
Definition add_node (m : gmap value (gset Z)) (np : nat * value) : gmap value (gset Z) :=
  <[np.2 := {[Z.of_nat np.1]} ∪ default ∅ (m !! np.2)]> m.

Definition group_parts (a : list value) : gmap value (gset Z) :=
  foldl add_node ∅ (imap pair a).

(** Lines 36-63.  [in_assignment] is the name of the node attribute that
    holds the initial labels: the docstring calls it a dictionary, the code
    hands it to [get_node_attributes].  Without a graph, the first call into
    networkx fails on [None]. *)
Definition _first_time (in_graph : option NxGraph) (in_assignment : option string)
    (in_updaters : option (gmap string (PState → value)))
  : result (PState * gmap string (PState → value)) :=
  match in_graph with
  | None => Raise AttributeError
  | Some g =>
      let self_graph := networkx.convert_node_labels_to_integers g "OLDID" in
      let zeros := (λ _, VInt 0) <$> nx_nodes g in
      let self_assignment :=
        if truthy_name in_assignment
        then (λ n, default VNone
                     (networkx.get_node_attributes self_graph (default "" in_assignment) n))
               <$> seq 0 (length (nx_nodes g))
        else zeros in
      let self_updaters :=
        match in_updaters with
        | None => ∅
        | Some u => if decide (size u = 0%nat) then ∅ else u
        end in
      let mec :=
        rundmcmc_proposals.max_edge_cuts edge_cut_statistic self_graph self_assignment in
      Ok (mkPState self_graph self_assignment None None None None mec
            {| is_defaultdict := true; items := group_parts self_assignment |},
          self_updaters)
  end.

(** Lines 69-71: copy the parent's list, then [self.assignment[key] = val]
    for every item of the flips, in the dictionary's order. *)
Fixpoint apply_flips (a : list value) (fs : list (Z * value)) : result (list value) :=
  match fs with
  | [] => Ok a
  | (key, val) :: rest => a' ← list_setitem a key val; apply_flips a' rest
  end.

(** Lines 95-96: for every [part, flow] of the flows,
    [self.parts[part] = (self.parent.parts[part] | flow['in']) - flow['out']].
    Reading [self.parent.parts[part]] goes through [parts_getitem], so the
    parent's dictionary is part of the loop's state.  Every key is met
    once, so the order of the items decides neither the outcome nor the
    parent's dictionary (see [update_loop_Ok] and [update_loop_Raise]). *)
Fixpoint update_loop (fls : list (value * Flow)) (parent_parts : PartsDict)
    (self_parts : gmap value (gset Z)) : PartsDict * result (gmap value (gset Z)) :=
  match fls with
  | [] => (parent_parts, Ok self_parts)
  | (part, flow) :: rest =>
      let '(parent_parts', r) := parts_getitem parent_parts part in
      match r with
      | Raise e => (parent_parts', Raise e)
      | Ok members =>
          update_loop rest parent_parts'
            (<[part := (members ∪ flow_in flow) ∖ flow_out flow]> self_parts)
      end
  end.

(** Line 99: keep the items whose set is not empty, in a plain dict. *)
Definition drop_empty (m : gmap value (gset Z)) : gmap value (gset Z) :=
  filter (λ kv, (0 < size kv.2)%nat) m.

(** Lines 88-99, for a child with assignment [self_assignment] and flips
    [fs].  Returns the parent's parts dictionary after the call and, on
    success, the child's flows, edge flows and parts. *)
Definition _update_parts (parent : PState) (fs : list (Z * value))
    (self_assignment : list value)
  : PartsDict * result (gmap value Flow * list (Z * Z * EdgeChange) * PartsDict) :=
  match rundmcmc_updaters.flows_from_changes (assignment parent) fs with
  | Raise e => (parts parent, Raise e)
  | Ok self_flows =>
      let self_edge_flows :=
        rundmcmc_updaters.compute_edge_flows (graph parent) (assignment parent)
          self_assignment fs in
      let self_parts := items (parts parent) in
      let '(parent_parts, r) :=
        update_loop (map_to_list self_flows) (parts parent) self_parts in
      (parent_parts,
       self_parts ← r;
       Ok (self_flows, self_edge_flows,
           {| is_defaultdict := false; items := drop_empty self_parts |}))
  end.

(** Lines 65-78.  Returns the parent after the call and, on success, the
    child's state and registry. *)
Definition _from_parent (in_parent : Partition) (in_flips : option (list (Z * value)))
  : Partition * result (PState * gmap string (PState → value)) :=
  match in_flips with
  | None => (in_parent, Raise AttributeError)
  | Some fs =>
      match apply_flips (assignment (state in_parent)) fs with
      | Raise e => (in_parent, Raise e)
      | Ok self_assignment =>
          let '(parent_parts, r) := _update_parts (state in_parent) fs self_assignment in
          let parent' := set_parts parent_parts in_parent in
          (parent',
           '(self_flows, self_edge_flows, self_parts) ← r;
           Ok (mkPState (graph (state in_parent)) self_assignment (Some (state parent'))
                 (Some fs) (Some self_flows) (Some self_edge_flows)
                 (max_edge_cuts (state in_parent)) self_parts,
               updaters in_parent))
      end
  end.

(** Lines 101-106: a fresh cache, then every key of the registry that is
    not in the cache yet is computed and stored. *)
Definition update_step (self : PState) (cache : gmap string value)
    (kf : string * (PState → value)) : gmap string value :=
  if decide (is_Some (cache !! kf.1)) then cache else <[kf.1 := kf.2 self]> cache.

Definition _update (self : PState) (ups : gmap string (PState → value)) : gmap string value :=
  foldl (update_step self) ∅ (map_to_list ups).

(** Lines 16-34.  The first component is the [parent] argument after the
    call. *)
Definition __init__ (in_graph : option NxGraph) (in_assignment : option string)
    (in_updaters : option (gmap string (PState → value)))
    (in_parent : option Partition) (in_flips : option (list (Z * value)))
  : option Partition * result Partition :=
  let '(parent', r) :=
    match in_parent with
    | Some p =>
        if truthy in_parent
        then let '(p', r) := _from_parent p in_flips in (Some p', r)
        else (in_parent, _first_time in_graph in_assignment in_updaters)
    | None => (in_parent, _first_time in_graph in_assignment in_updaters)
    end in
  (parent',
   '(self, ups) ← r;
   let cache := _update self ups in
   let mec :=
     rundmcmc_proposals.max_edge_cuts edge_cut_statistic (graph self) (assignment self) in
   Ok {| state := set_max_edge_cuts mec self; updaters := ups; _cache := cache |}).

(** Lines 108-115.  Returns [self] after the call and the outcome. *)
Definition merge (self : Partition) (in_flips : list (Z * value))
  : Partition * result Partition :=
  let '(parent', r) := __init__ None None None (Some self) (Some in_flips) in
  (default self parent', r).

(** Lines 117-118. *)
Definition crosses_parts (self : Partition) (edge : Z * Z) : result bool :=
  u ← list_getitem (assignment (state self)) edge.1;
  v ← list_getitem (assignment (state self)) edge.2;
  Ok (bool_decide (u ≠ v)).

(** Lines 120-128.  Returns [self] after the call and the outcome. *)
Definition __getitem__ (self : Partition) (key : string) : Partition * result value :=
  match _cache self !! key with
  | Some v => (self, Ok v)
  | None =>
      match updaters self !! key with
      | None => (self, Raise KeyError)
      | Some f =>
          let v := f (state self) in
          ({| state := state self; updaters := updaters self;
              _cache := <[key := v]> (_cache self) |}, Ok v)
      end
  end.

(** The names a method body can read besides its locals: the module's
    imports and the class (no builtin is called [graph]). *)
Definition module_globals : list string :=
  ["collections"; "networkx"; "max_edge_cuts"; "flows_from_changes";
   "compute_edge_flows"; "Partition"].

Definition read_name (locals : list string) (name : string) : result unit :=
  if decide (name ∈ locals ++ module_globals) then Ok () else Raise NameError.

(** Lines 130-134.  The arguments of [map] are evaluated in order: the
    getter on [self.graph], then [range(len(graph.nodes))], which reads
    the name [graph]; the method's only local is [self].  The rest is what
    the body computes once the name is bound to the partition's graph. *)
Definition assignment_by_nodeid (self : Partition) : result (gmap value value) :=
  let getter n :=
    default VNone (networkx.get_node_attributes (graph (state self)) "OLDID" n) in
  _ ← read_name ["self"] "graph";
  let node_ids := getter <$> seq 0 (length (nodes (graph (state self)))) in
  Ok (list_to_map (reverse (zip node_ids (assignment (state self))))).

(** ** Predicates used in the statements *)

(** A node enters [lbl]: it is flipped to [lbl] from another label. *)
Definition entering (a : list value) (fs : list (Z * value)) (lbl : value) (z : Z) : Prop :=
  ∃ old, (z, lbl) ∈ fs ∧ list_getitem a z = Ok old ∧ old ≠ lbl.

(** A node leaves [lbl]: it carries [lbl] and is flipped to another label. *)
Definition leaving (a : list value) (fs : list (Z * value)) (lbl : value) (z : Z) : Prop :=
  ∃ new, (z, new) ∈ fs ∧ list_getitem a z = Ok lbl ∧ lbl ≠ new.

(** [d'] is [d] with, at most, empty sets added under new keys, which
    only a defaultdict allows. *)
Definition grown (d d' : PartsDict) : Prop :=
  is_defaultdict d' = is_defaultdict d ∧
  ∀ lbl, items d' !! lbl = items d !! lbl
         ∨ (items d !! lbl = None ∧ items d' !! lbl = Some ∅ ∧ is_defaultdict d = true).

(** Node [z] carries label [lbl] in the assignment [a]. *)
Definition labelled (a : list value) (lbl : value) (z : Z) : Prop :=
  0 ≤ z ∧ a !! Z.to_nat z = Some lbl.

(** [m] is an index of [a]: the set under a label holds exactly the nodes
    that carry it, and every label in use is listed. *)
Definition indexes (a : list value) (m : gmap value (gset Z)) : Prop :=
  (∀ lbl S, m !! lbl = Some S → ∀ z, z ∈ S ↔ labelled a lbl z)
  ∧ (∀ lbl, lbl ∈ a → is_Some (m !! lbl)).

Definition no_empty_part (m : gmap value (gset Z)) : Prop :=
  ∀ lbl S, m !! lbl = Some S → S ≠ ∅.

(** The Parts Index as the spec words it (3): the inverse image partition
    of the assignment, every label in use mapped to the set of the nodes
    that carry it.  This is the grouping from scratch that the incremental
    update is compared with. *)
Definition members (a : list value) (lbl : value) : gset Z :=
  list_to_set (Z.of_nat <$> filter (λ i, a !! i = Some lbl) (seq 0 (length a))).

Definition inverse_image_index (a : list value) : gmap value (gset Z) :=
  set_to_map (λ lbl, (lbl, members a lbl)) (list_to_set a : gset value).

(** The string has a blank in it. *)
Fixpoint has_space (s : string) : bool :=
  match s with
  | EmptyString => false
  | String c rest => bool_decide (c = Ascii.Space) || has_space rest
  end.

(** A Flip Set for an assignment of [n] nodes: a dictionary (no key
    twice) whose keys are node ids, [0 <= key < n]. *)
Definition flip_set (a : list value) (fs : list (Z * value)) : Prop :=
  NoDup fs.*1 ∧ Forall (λ kv : Z * value, 0 ≤ kv.1 < Z.of_nat (length a)) fs.

(** What the code maintains about a Partition object: its parts
    dictionary indexes its assignment, a plain dict lists no empty set,
    [max_edge_cuts] is the statistic of its own graph and assignment, and
    the cache holds values of registered keys only. *)
Definition well_formed (p : Partition) : Prop :=
  indexes (assignment (state p)) (items (parts (state p)))
  ∧ (is_defaultdict (parts (state p)) = false → no_empty_part (items (parts (state p))))
  ∧ max_edge_cuts (state p) =
      rundmcmc_proposals.max_edge_cuts edge_cut_statistic
        (graph (state p)) (assignment (state p))
  ∧ (∀ key, is_Some (_cache p !! key) → is_Some (updaters p !! key)).

(** The states a Partition object can be in: as built by [__init__] from a
    graph, as built by [merge] from a Flip Set, as left by a [merge] called
    on it (with any flips), and as left by a lookup.  A child enters only
    through a Flip Set, whose keys are node ids: what [merge] makes of
    another key in [-n, 0) depends on [compute_edge_flows], which is not
    among the sources. *)
Inductive reachable : Partition → Prop :=
| reachable_root g name ups root :
    __init__ (Some g) name ups None None = (None, Ok root) → reachable root
| reachable_child par fs par' child :
    reachable par → flip_set (assignment (state par)) fs →
    merge par fs = (par', Ok child) → reachable child
| reachable_parent par fs par' r :
    reachable par → merge par fs = (par', r) → reachable par'
| reachable_getitem p key p' r :
    reachable p → __getitem__ p key = (p', r) → reachable p'.

(** The shape of a Partition object: one label per node of its graph, the
    edges of the graph between its nodes, and no part without a node to
    be in it. *)
Definition shaped (p : Partition) : Prop :=
  length (assignment (state p)) = length (nodes (graph (state p)))
  ∧ Forall (λ e : Z * Z,
              0 ≤ e.1 < Z.of_nat (length (nodes (graph (state p))))
              ∧ 0 ≤ e.2 < Z.of_nat (length (nodes (graph (state p)))))
      (edges (graph (state p)))
  ∧ (assignment (state p) = [] → items (parts (state p)) = ∅).

(** The objects of the end-to-end scenario: the root over [path4], the
    child of the flips {2: "B", 3: "B"}, and the root as that transition
    leaves it.  [no_partition] stands for the object a failed call does not
    return. *)
Definition no_partition : Partition :=
  {| state := mkPState (Build_Graph [] []) [] None None None None VNone
                (Build_PartsDict true ∅);
     updaters := ∅;
     _cache := ∅ |}.

Definition returned (r : result Partition) : Partition :=
  match r with
  | Ok p => p
  | Raise _ => no_partition
  end.

Definition succeeded (r : result Partition) : bool :=
  match r with
  | Ok _ => true
  | Raise _ => false
  end.

Definition scenario_flips : list (Z * value) := [(2, VStr "B"); (3, VStr "B")].

Definition scenario_root : Partition :=
  returned (__init__ (Some path4) (Some "district"%string) None None None).2.

Definition scenario_child : Partition := returned (merge scenario_root scenario_flips).2.

Definition scenario_root_after : Partition := (merge scenario_root scenario_flips).1.

(** The same transition in two steps, and the root with a registry. *)
Definition scenario_first : Partition :=
  returned (merge scenario_root [(2, VStr "B")]).2.

Definition scenario_second : Partition :=
  returned (merge scenario_first [(3, VStr "B")]).2.

Definition scenario_registry_root : Partition :=
  returned (__init__ (Some path4) (Some "district"%string)
              (Some population_registry) None None).2.

(** The root over the graph without nodes. *)
Definition scenario_empty_root : Partition :=
  returned (__init__ (Some empty_graph) None None None None).2.

(** * Properties *)

(** ** Python list indexing *)

Lemma py_index_nonneg n i :
  0 ≤ i < Z.of_nat n → py_index n i = Ok (Z.to_nat i).
Proof. intros Hi. unfold py_index. by rewrite decide_True. Qed.

Lemma py_index_negative n i :
  - Z.of_nat n ≤ i < 0 → py_index n i = Ok (Z.to_nat (Z.of_nat n + i)).
Proof.
  intros Hi. unfold py_index.
  rewrite decide_False by lia. by rewrite decide_True.
Qed.

Lemma py_index_outside n i :
  i < - Z.of_nat n ∨ Z.of_nat n ≤ i → py_index n i = Raise IndexError.
Proof.
  intros Hi. unfold py_index.
  rewrite decide_False by lia. by rewrite decide_False by lia.
Qed.

Lemma py_index_lt n i k : py_index n i = Ok k → (k < n)%nat.
Proof.
  unfold py_index. repeat case_decide; intros [= <-]; lia.
Qed.

Lemma list_getitem_nonneg {A} (l : list A) i x :
  0 ≤ i → list_getitem l i = Ok x ↔ l !! Z.to_nat i = Some x.
Proof.
  intros Hi. unfold list_getitem.
  destruct (decide (i < Z.of_nat (length l))) as [Hlt|Hge].
  - rewrite py_index_nonneg by lia. simpl.
    destruct (l !! Z.to_nat i); naive_solver.
  - rewrite py_index_outside by lia. simpl.
    rewrite (lookup_ge_None_2 l) by lia. naive_solver.
Qed.

Lemma list_getitem_in_range {A} (l : list A) i :
  - Z.of_nat (length l) ≤ i < Z.of_nat (length l) → is_Ok (list_getitem l i).
Proof.
  intros Hi. unfold list_getitem.
  destruct (decide (0 ≤ i)).
  - rewrite py_index_nonneg by lia. simpl.
    destruct (lookup_lt_is_Some_2 l (Z.to_nat i)) as [x ->]; [lia|]. by exists x.
  - rewrite py_index_negative by lia. simpl.
    destruct (lookup_lt_is_Some_2 l (Z.to_nat (Z.of_nat (length l) + i))) as [x ->]; [lia|].
    by exists x.
Qed.

Lemma list_getitem_elem_of {A} (l : list A) i x : list_getitem l i = Ok x → x ∈ l.
Proof.
  unfold list_getitem. destruct (py_index (length l) i) as [k|]; simpl; [|done].
  destruct (l !! k) as [y|] eqn:Hk; [|done]. intros [= <-].
  by eapply list_elem_of_lookup_2.
Qed.

Lemma list_setitem_length {A} (l l' : list A) i x :
  list_setitem l i x = Ok l' → length l' = length l.
Proof.
  unfold list_setitem. destruct (py_index (length l) i); simpl; [|done].
  intros [= <-]. apply length_insert.
Qed.

Lemma list_setitem_nonneg {A} (l : list A) i x :
  0 ≤ i < Z.of_nat (length l) → list_setitem l i x = Ok (<[Z.to_nat i := x]> l).
Proof. intros Hi. unfold list_setitem. by rewrite py_index_nonneg. Qed.

Lemma list_setitem_outside {A} (l : list A) i x :
  i < - Z.of_nat (length l) ∨ Z.of_nat (length l) ≤ i →
  list_setitem l i x = Raise IndexError.
Proof. intros Hi. unfold list_setitem. by rewrite py_index_outside. Qed.

Lemma list_setitem_in_range {A} (l : list A) i x :
  - Z.of_nat (length l) ≤ i < Z.of_nat (length l) → is_Ok (list_setitem l i x).
Proof.
  intros Hi. unfold list_setitem.
  destruct (decide (0 ≤ i)).
  - rewrite py_index_nonneg by lia. by eexists.
  - rewrite py_index_negative by lia. by eexists.
Qed.

(** ** Applying the flips (lines 69-71) *)

Lemma apply_flips_length fs : ∀ a a',
  apply_flips a fs = Ok a' → length a' = length a.
Proof.
  induction fs as [|[key val] rest IH]; intros a a'; simpl.
  - by intros [= <-].
  - destruct (list_setitem a key val) as [a1|] eqn:Hset; simpl; [|done].
    intros Hrest. rewrite (IH _ _ Hrest). by eapply list_setitem_length.
Qed.

Lemma apply_flips_in_range fs : ∀ a,
  Forall (λ kv : Z * value, - Z.of_nat (length a) ≤ kv.1 < Z.of_nat (length a)) fs →
  is_Ok (apply_flips a fs).
Proof.
  induction fs as [|[key val] rest IH]; intros a Hfs; simpl.
  - by eexists.
  - apply Forall_cons in Hfs as [Hkey Hrest]. simpl in Hkey.
    destruct (list_setitem_in_range a key val Hkey) as [a1 Ha1].
    rewrite Ha1. simpl. apply IH.
    by rewrite (list_setitem_length _ _ _ _ Ha1).
Qed.

Lemma apply_flips_outside fs : ∀ a,
  Exists (λ kv : Z * value, kv.1 < - Z.of_nat (length a) ∨ Z.of_nat (length a) ≤ kv.1) fs →
  apply_flips a fs = Raise IndexError.
Proof.
  induction fs as [|[key val] rest IH]; intros a Hfs; simpl.
  - by apply Exists_nil in Hfs.
  - destruct (list_setitem a key val) as [a1|e] eqn:Hset; simpl.
    + apply Exists_cons in Hfs as [Hkey|Hrest].
      * simpl in Hkey. by rewrite list_setitem_outside in Hset.
      * apply IH. by rewrite (list_setitem_length _ _ _ _ Hset).
    + unfold list_setitem in Hset.
      destruct (py_index (length a) key) eqn:Hidx; [done|].
      unfold py_index in Hidx. repeat case_decide; naive_solver.
Qed.

(** With keys in [0, n), the child's list holds the flipped label at a
    flipped node and the parent's label elsewhere. *)
Lemma apply_flips_other fs : ∀ a a' (i : nat),
  Forall (λ kv : Z * value, 0 ≤ kv.1) fs →
  apply_flips a fs = Ok a' → Z.of_nat i ∉ fs.*1 → a' !! i = a !! i.
Proof.
  induction fs as [|[key val] rest IH]; intros a a' i Hpos; simpl.
  - by intros [= <-].
  - apply Forall_cons in Hpos as [Hkey Hpos]. simpl in Hkey.
    destruct (list_setitem a key val) as [a1|] eqn:Hset; simpl; [|done].
    intros Hrest Hi. apply not_elem_of_cons in Hi as [Hne Hi].
    rewrite (IH _ _ _ Hpos Hrest Hi).
    unfold list_setitem in Hset.
    destruct (py_index (length a) key) as [k|] eqn:Hidx; [|done].
    simpl in Hset. injection Hset as <-.
    apply list_lookup_insert_ne.
    unfold py_index in Hidx. repeat case_decide; simplify_eq; lia.
Qed.

Lemma apply_flips_flipped fs : ∀ a a' key val,
  NoDup fs.*1 → Forall (λ kv : Z * value, 0 ≤ kv.1) fs →
  apply_flips a fs = Ok a' → (key, val) ∈ fs → a' !! Z.to_nat key = Some val.
Proof.
  induction fs as [|[k0 v0] rest IH]; intros a a' key val Hnd Hpos; simpl.
  - intros _ Hin. by apply elem_of_nil in Hin.
  - apply NoDup_cons in Hnd as [Hfresh Hnd].
    pose proof Hpos as Hpos0.
    apply Forall_cons in Hpos as [Hk0 Hpos]. simpl in Hk0.
    destruct (list_setitem a k0 v0) as [a1|] eqn:Hset; simpl; [|done].
    intros Hrest Hin. apply elem_of_cons in Hin as [[= -> ->]|Hin].
    + rewrite (apply_flips_other rest a1 a' (Z.to_nat k0) Hpos Hrest)
        by (by rewrite Z2Nat.id).
      unfold list_setitem in Hset.
      destruct (py_index (length a) k0) as [k|] eqn:Hidx; [|done].
      simpl in Hset. injection Hset as <-.
      pose proof (py_index_lt _ _ _ Hidx).
      unfold py_index in Hidx. repeat case_decide; simplify_eq; try lia.
      by apply list_lookup_insert_eq.
    + by eapply IH.
Qed.

(** ** The flows (spec 4.2) *)

Lemma entering_cons a node new rest lbl z :
  entering a ((node, new) :: rest) lbl z ↔
    (z = node ∧ lbl = new ∧ ∃ old, list_getitem a node = Ok old ∧ old ≠ new)
    ∨ entering a rest lbl z.
Proof.
  unfold entering. split.
  - intros (old & Hin & Hget & Hne). apply elem_of_cons in Hin as [[= -> ->]|Hin].
    + left. eauto.
    + right. eauto.
  - intros [(-> & -> & old & Hget & Hne)|(old & Hin & Hget & Hne)].
    + exists old. split; [left|done].
    + exists old. split; [by right|done].
Qed.

Lemma leaving_cons a node new rest lbl z :
  leaving a ((node, new) :: rest) lbl z ↔
    (z = node ∧ list_getitem a node = Ok lbl ∧ lbl ≠ new) ∨ leaving a rest lbl z.
Proof.
  unfold leaving. split.
  - intros (new' & Hin & Hget & Hne). apply elem_of_cons in Hin as [[= -> ->]|Hin].
    + by left.
    + right. eauto.
  - intros [(-> & Hget & Hne)|(new' & Hin & Hget & Hne)].
    + exists new. split; [left|done].
    + exists new'. split; [by right|done].
Qed.

Lemma flow_at_add_out node part fl lbl :
  rundmcmc_updaters.flow_at (rundmcmc_updaters.add_out node part fl) lbl =
    if decide (part = lbl)
    then {| flow_in := flow_in (rundmcmc_updaters.flow_at fl lbl);
            flow_out := {[node]} ∪ flow_out (rundmcmc_updaters.flow_at fl lbl) |}
    else rundmcmc_updaters.flow_at fl lbl.
Proof.
  unfold rundmcmc_updaters.flow_at at 1, rundmcmc_updaters.add_out.
  case_decide as Heq.
  - subst. by rewrite lookup_insert_eq.
  - by rewrite lookup_insert_ne.
Qed.

Lemma flow_at_add_in node part fl lbl :
  rundmcmc_updaters.flow_at (rundmcmc_updaters.add_in node part fl) lbl =
    if decide (part = lbl)
    then {| flow_in := {[node]} ∪ flow_in (rundmcmc_updaters.flow_at fl lbl);
            flow_out := flow_out (rundmcmc_updaters.flow_at fl lbl) |}
    else rundmcmc_updaters.flow_at fl lbl.
Proof.
  unfold rundmcmc_updaters.flow_at at 1, rundmcmc_updaters.add_in.
  case_decide as Heq.
  - subst. by rewrite lookup_insert_eq.
  - by rewrite lookup_insert_ne.
Qed.

Lemma flows_loop_spec a fs : ∀ fl fl',
  rundmcmc_updaters.flows_loop a fs fl = Ok fl' →
  ∀ lbl,
    (∀ z, z ∈ flow_in (rundmcmc_updaters.flow_at fl' lbl) ↔
          z ∈ flow_in (rundmcmc_updaters.flow_at fl lbl) ∨ entering a fs lbl z)
    ∧ (∀ z, z ∈ flow_out (rundmcmc_updaters.flow_at fl' lbl) ↔
            z ∈ flow_out (rundmcmc_updaters.flow_at fl lbl) ∨ leaving a fs lbl z)
    ∧ (lbl ∈ dom fl' ↔
         lbl ∈ dom fl ∨ ∃ z, entering a fs lbl z ∨ leaving a fs lbl z).
Proof.
  induction fs as [|[node new] rest IH]; intros fl fl'; simpl.
  - intros [= <-] lbl. unfold entering, leaving.
    split_and!; [intros z|intros z|]; split; try tauto.
    + intros [?|(? & H & _)]; [done|]. by apply elem_of_nil in H.
    + intros [?|(? & H & _)]; [done|]. by apply elem_of_nil in H.
    + intros [?|(z & [(? & H & _)|(? & H & _)])]; [done|..]; by apply elem_of_nil in H.
  - destruct (list_getitem a node) as [old|] eqn:Hget; simpl; [|done].
    case_decide as Hsame.
    + subst new. intros Hrest lbl.
      destruct (IH _ _ Hrest lbl) as (Hin & Hout & Hdom).
      assert (Hent : ∀ z, entering a ((node, old) :: rest) lbl z ↔ entering a rest lbl z).
      { intros z. rewrite entering_cons. split; [|by right].
        intros [(_ & _ & old' & Hg & Hne)|?]; [|done]. congruence. }
      assert (Hlv : ∀ z, leaving a ((node, old) :: rest) lbl z ↔ leaving a rest lbl z).
      { intros z. rewrite leaving_cons. split; [|by right].
        intros [(_ & Hg & Hne)|?]; [|done]. congruence. }
      split_and!.
      * intros z. by rewrite Hin, Hent.
      * intros z. by rewrite Hout, Hlv.
      * rewrite Hdom. split; intros [?|(z & Hz)]; try (by left); right; exists z.
        -- by rewrite Hent, Hlv.
        -- by rewrite <- Hent, <- Hlv.
    + intros Hrest lbl.
      destruct (IH _ _ Hrest lbl) as (Hin & Hout & Hdom).
      split_and!.
      * intros z. rewrite Hin, entering_cons, flow_at_add_in, flow_at_add_out.
        split.
        -- intros [Hz|?]; [|by right; right].
           repeat case_decide; simpl in Hz; subst;
             try (by left); apply elem_of_union in Hz as [Hz|Hz];
             try (by left); apply elem_of_singleton in Hz as ->;
             right; left; eauto.
        -- intros [Hz|[(-> & -> & _)|?]]; [| |by right].
           ++ left. repeat case_decide; simpl; set_solver.
           ++ left. rewrite decide_True by done. simpl. set_solver.
      * intros z. rewrite Hout, leaving_cons, flow_at_add_in, flow_at_add_out.
        split.
        -- intros [Hz|?]; [|by right; right].
           repeat case_decide; simpl in Hz; subst;
             try (by left); apply elem_of_union in Hz as [Hz|Hz];
             try (by left); apply elem_of_singleton in Hz as ->;
             right; left; eauto.
        -- intros [Hz|[(-> & Hg & _)|?]]; [| |by right].
           ++ left. repeat case_decide; simpl; set_solver.
           ++ left. rewrite Hget in Hg. injection Hg as ->.
              case_decide; simpl; rewrite ?decide_True by done; simpl; set_solver.
      * rewrite Hdom. unfold rundmcmc_updaters.add_in, rundmcmc_updaters.add_out.
        rewrite !dom_insert_L.
        split.
        -- intros [Hd|(z & Hz)].
           ++ apply elem_of_union in Hd as [Hd|Hd]; [|apply elem_of_union in Hd as [Hd|Hd]].
              ** apply elem_of_singleton in Hd as ->. right. exists node. left.
                 apply entering_cons. left. eauto.
              ** apply elem_of_singleton in Hd as ->. right. exists node. right.
                 apply leaving_cons. left. eauto.
              ** by left.
           ++ right. exists z. rewrite entering_cons, leaving_cons. tauto.
        -- intros [Hd|(z & [He|Hl])].
           ++ left. set_solver.
           ++ apply entering_cons in He as [(-> & -> & _)|He].
              ** left. set_solver.
              ** right. eauto.
           ++ apply leaving_cons in Hl as [(-> & Hg & _)|Hl].
              ** left. rewrite Hget in Hg. injection Hg as ->. set_solver.
              ** right. eauto.
Qed.

Lemma flows_from_changes_in_range a fs :
  Forall (λ kv : Z * value, - Z.of_nat (length a) ≤ kv.1 < Z.of_nat (length a)) fs →
  is_Ok (rundmcmc_updaters.flows_from_changes a fs).
Proof.
  unfold rundmcmc_updaters.flows_from_changes. generalize (∅ : gmap value Flow).
  induction fs as [|[node new] rest IH]; intros fl Hfs; simpl.
  - by eexists.
  - apply Forall_cons in Hfs as [Hkey Hrest]. simpl in Hkey.
    destruct (list_getitem_in_range a node Hkey) as [old ->]. simpl.
    case_decide; by apply IH.
Qed.

(** ** The parts dictionary *)

Lemma grown_refl d : grown d d.
Proof. split; [done|]. intros lbl. by left. Qed.

Lemma grown_trans d1 d2 d3 : grown d1 d2 → grown d2 d3 → grown d1 d3.
Proof.
  intros [Hk12 H12] [Hk23 H23]. split; [congruence|].
  intros lbl. destruct (H12 lbl) as [E12|(N1 & E2 & D1)], (H23 lbl) as [E23|(N2 & E3 & D2)].
  - left. congruence.
  - right. split_and!; congruence.
  - right. split_and!; congruence.
  - congruence.
Qed.

Lemma grown_default d d' lbl :
  grown d d' → default ∅ (items d' !! lbl) = default ∅ (items d !! lbl).
Proof.
  intros [_ H]. destruct (H lbl) as [->|(-> & -> & _)]; done.
Qed.

Lemma grown_plain_dict d d' : grown d d' → is_defaultdict d = false → d' = d.
Proof.
  intros [Hk H] Hplain. destruct d as [k m], d' as [k' m']. simpl in *. subst k'.
  f_equal. apply map_eq. intros lbl. destruct (H lbl) as [?|(_ & _ & ?)]; congruence.
Qed.

Lemma grown_lookup_Some d d' lbl S :
  grown d d' → items d !! lbl = Some S → items d' !! lbl = Some S.
Proof. intros [_ H] HS. destruct (H lbl) as [->|(? & _)]; congruence. Qed.

Lemma set_parts_same p : set_parts (parts (state p)) p = p.
Proof. by destruct p as [[] ? ?]. Qed.

Lemma parts_getitem_grown d k d' r : parts_getitem d k = (d', r) → grown d d'.
Proof.
  unfold parts_getitem. destruct (items d !! k) as [S|] eqn:Hk.
  - intros [= <- <-]. apply grown_refl.
  - destruct (is_defaultdict d) eqn:Hdd; intros [= <- <-]; [|apply grown_refl].
    split; [done|]. intros lbl. simpl.
    destruct (decide (k = lbl)) as [->|Hne].
    + right. by rewrite lookup_insert_eq.
    + left. by rewrite lookup_insert_ne.
Qed.

Lemma parts_getitem_Ok d k d' members :
  parts_getitem d k = (d', Ok members) →
  members = default ∅ (items d !! k) ∧ is_Some (items d' !! k).
Proof.
  unfold parts_getitem. destruct (items d !! k) as [S|] eqn:Hk.
  - intros [= <- <-]. by rewrite Hk.
  - destruct (is_defaultdict d); intros [= <- <-]. simpl.
    by rewrite lookup_insert_eq.
Qed.

Lemma parts_getitem_Raise d k d' e :
  parts_getitem d k = (d', Raise e) →
  e = KeyError ∧ is_defaultdict d = false ∧ items d !! k = None.
Proof.
  unfold parts_getitem. destruct (items d !! k) as [S|] eqn:Hk; [done|].
  destruct (is_defaultdict d); by intros [= <- <-].
Qed.

(** ** The loop of lines 95-96 *)

Lemma update_loop_grown fls : ∀ pp sp pp' r,
  update_loop fls pp sp = (pp', r) → grown pp pp'.
Proof.
  induction fls as [|[part flow] rest IH]; intros pp sp pp' r; simpl.
  - intros [= <- <-]. apply grown_refl.
  - destruct (parts_getitem pp part) as [pp1 [members|e]] eqn:Hget.
    + intros Hrest. eapply grown_trans; [by eapply parts_getitem_grown|by eapply IH].
    + intros [= <- <-]. by eapply parts_getitem_grown.
Qed.

Lemma update_loop_Ok fls : ∀ pp sp pp' sp',
  NoDup fls.*1 →
  update_loop fls pp sp = (pp', Ok sp') →
  (∀ lbl flow, (lbl, flow) ∈ fls →
     sp' !! lbl = Some ((default ∅ (items pp !! lbl) ∪ flow_in flow) ∖ flow_out flow))
  ∧ (∀ lbl, lbl ∉ fls.*1 → sp' !! lbl = sp !! lbl).
Proof.
  induction fls as [|[part flow] rest IH]; intros pp sp pp' sp' Hnd; simpl.
  - intros [= <- <-]. split; [|done]. intros lbl flow Hin. by apply elem_of_nil in Hin.
  - apply NoDup_cons in Hnd as [Hfresh Hnd].
    destruct (parts_getitem pp part) as [pp1 [members|e]] eqn:Hget; [|done].
    intros Hrest.
    destruct (parts_getitem_Ok _ _ _ _ Hget) as [-> _].
    pose proof (parts_getitem_grown _ _ _ _ Hget) as Hgrown.
    destruct (IH _ _ _ _ Hnd Hrest) as [Hkeys Hother].
    split.
    + intros lbl flow' Hin. apply elem_of_cons in Hin as [[= -> ->]|Hin].
      * rewrite (Hother part Hfresh). by rewrite lookup_insert_eq.
      * rewrite (Hkeys lbl flow' Hin). by rewrite (grown_default _ _ _ Hgrown).
    + intros lbl Hlbl. apply not_elem_of_cons in Hlbl as [Hne Hlbl].
      rewrite (Hother lbl Hlbl). by rewrite lookup_insert_ne.
Qed.

Lemma update_loop_Raise fls : ∀ pp sp pp' e,
  update_loop fls pp sp = (pp', Raise e) →
  e = KeyError ∧ is_defaultdict pp = false ∧ pp' = pp
  ∧ ∃ lbl, lbl ∈ fls.*1 ∧ items pp !! lbl = None.
Proof.
  induction fls as [|[part flow] rest IH]; intros pp sp pp' e; simpl; [done|].
  destruct (parts_getitem pp part) as [pp1 [members|e1]] eqn:Hget.
  - intros Hrest.
    pose proof (parts_getitem_grown _ _ _ _ Hget) as Hgrown.
    destruct (IH _ _ _ _ Hrest) as (-> & Hplain & -> & lbl & Hin & Hnone).
    assert (is_defaultdict pp = false) as Hpp by (destruct Hgrown; congruence).
    rewrite (grown_plain_dict _ _ Hgrown Hpp) in *.
    split_and!; [done..|]. exists lbl. split; [by right|done].
  - intros [= <- <-].
    destruct (parts_getitem_Raise _ _ _ _ Hget) as (-> & Hplain & Hnone).
    rewrite (grown_plain_dict _ _ (parts_getitem_grown _ _ _ _ Hget) Hplain).
    split_and!; [done..|]. exists part. split; [by left|done].
Qed.

Lemma update_loop_succeeds fls : ∀ pp sp,
  is_defaultdict pp = true ∨ (∀ lbl, lbl ∈ fls.*1 → is_Some (items pp !! lbl)) →
  is_Ok (update_loop fls pp sp).2.
Proof.
  intros pp sp Hok.
  destruct (update_loop fls pp sp) as [pp' [sp'|e]] eqn:Hloop; [by eexists|].
  destruct (update_loop_Raise _ _ _ _ _ Hloop) as (_ & Hplain & _ & lbl & Hin & Hnone).
  destruct Hok as [Hdd|Hall]; [congruence|].
  destruct (Hall lbl Hin) as [S HS]. congruence.
Qed.

(** ** Grouping an assignment from scratch (lines 61-63) *)

Lemma labelled_snoc a x lbl z :
  labelled (a ++ [x]) lbl z ↔ labelled a lbl z ∨ (z = Z.of_nat (length a) ∧ x = lbl).
Proof.
  unfold labelled. split.
  - intros [Hz Hlk].
    destruct (decide (Z.to_nat z < length a)%nat) as [Hlt|Hge].
    + rewrite lookup_app_l in Hlk by done. by left.
    + rewrite lookup_app_r in Hlk by lia.
      destruct (Z.to_nat z - length a)%nat as [|k] eqn:Hk; simpl in Hlk; [|done].
      injection Hlk as ->. right. split; [lia|done].
  - intros [[Hz Hlk]|[-> ->]].
    + split; [done|]. apply lookup_app_l_Some. done.
    + split; [lia|]. rewrite Nat2Z.id. rewrite lookup_app_r by lia.
      by rewrite Nat.sub_diag.
Qed.

Lemma labelled_elem_of a lbl z : labelled a lbl z → lbl ∈ a.
Proof. intros [_ Hlk]. by eapply list_elem_of_lookup_2. Qed.

Lemma labelled_range a lbl z : labelled a lbl z → 0 ≤ z < Z.of_nat (length a).
Proof. intros [Hz Hlk]. apply lookup_lt_Some in Hlk. lia. Qed.

Lemma elem_of_labelled a lbl : lbl ∈ a → ∃ z, labelled a lbl z.
Proof.
  intros Hin. apply list_elem_of_lookup_1 in Hin as [i Hi].
  exists (Z.of_nat i). split; [lia|]. by rewrite Nat2Z.id.
Qed.

Lemma group_parts_snoc a x :
  group_parts (a ++ [x]) = add_node (group_parts a) (length a, x).
Proof.
  unfold group_parts. rewrite imap_app, foldl_app. simpl.
  by rewrite Nat.add_0_r.
Qed.

Lemma group_parts_indexes a : indexes a (group_parts a) ∧ no_empty_part (group_parts a).
Proof.
  induction a as [|x a [[Hsets Hused] Hne]] using rev_ind.
  - split; [split|]; unfold group_parts; simpl.
    + intros lbl S HS. by rewrite lookup_empty in HS.
    + intros lbl Hin. by apply elem_of_nil in Hin.
    + intros lbl S HS. by rewrite lookup_empty in HS.
  - rewrite group_parts_snoc. unfold add_node. simpl.
    split; [split|].
    + intros lbl S HS z. rewrite labelled_snoc.
      destruct (decide (x = lbl)) as [->|Hdiff].
      * rewrite lookup_insert_eq in HS. injection HS as <-.
        rewrite elem_of_union, elem_of_singleton.
        destruct (group_parts a !! lbl) as [S0|] eqn:HS0; simpl.
        -- rewrite (Hsets lbl S0 HS0 z). naive_solver.
        -- split; [intros [->|Hz]; [by right|by apply not_elem_of_empty in Hz]|].
           intros [Hl|[-> _]]; [|by left].
           apply labelled_elem_of, Hused in Hl as [S1 HS1]. congruence.
      * rewrite lookup_insert_ne in HS by done.
        rewrite (Hsets lbl S HS z). naive_solver.
    + intros lbl Hin. apply elem_of_app in Hin as [Hin|Hin].
      * destruct (decide (x = lbl)) as [->|Hdiff].
        -- rewrite lookup_insert_eq. by eexists.
        -- rewrite lookup_insert_ne by done. by apply Hused.
      * apply list_elem_of_singleton in Hin as ->. rewrite lookup_insert_eq. by eexists.
    + intros lbl S HS.
      destruct (decide (x = lbl)) as [->|Hdiff].
      * rewrite lookup_insert_eq in HS. injection HS as <-. set_solver.
      * rewrite lookup_insert_ne in HS by done. by eapply Hne.
Qed.

(** An assignment has one index without empty sets. *)
Lemma indexes_unique a m1 m2 :
  indexes a m1 → no_empty_part m1 → indexes a m2 → no_empty_part m2 → m1 = m2.
Proof.
  intros [Hs1 Hu1] Hne1 [Hs2 Hu2] Hne2. apply map_eq. intros lbl.
  destruct (m1 !! lbl) as [S1|] eqn:H1, (m2 !! lbl) as [S2|] eqn:H2.
  - f_equal. apply set_eq. intros z. by rewrite (Hs1 _ _ H1 z), (Hs2 _ _ H2 z).
  - exfalso. destruct (set_choose_L S1 (Hne1 _ _ H1)) as [z Hz].
    apply (Hs1 _ _ H1), labelled_elem_of, Hu2 in Hz as [? ?]. congruence.
  - exfalso. destruct (set_choose_L S2 (Hne2 _ _ H2)) as [z Hz].
    apply (Hs2 _ _ H2), labelled_elem_of, Hu1 in Hz as [? ?]. congruence.
  - done.
Qed.

(** ** The inverse image partition of the spec *)

Lemma elem_of_members a lbl z : z ∈ members a lbl ↔ labelled a lbl z.
Proof.
  unfold members, labelled. rewrite elem_of_list_to_set, list_elem_of_fmap. split.
  - intros (i & -> & Hi). apply list_elem_of_filter in Hi as [Hi _].
    split; [lia|]. by rewrite Nat2Z.id.
  - intros [Hz Hlk]. exists (Z.to_nat z). split; [lia|].
    apply list_elem_of_filter. split; [done|].
    apply elem_of_seq. apply lookup_lt_Some in Hlk. lia.
Qed.

Lemma inverse_image_index_lookup a lbl S :
  inverse_image_index a !! lbl = Some S ↔ lbl ∈ a ∧ S = members a lbl.
Proof.
  unfold inverse_image_index. rewrite lookup_set_to_map by (simpl; congruence).
  split.
  - intros (y & Hy & [= -> <-]). by apply elem_of_list_to_set in Hy.
  - intros [Hin ->]. exists lbl. by rewrite elem_of_list_to_set.
Qed.

Lemma inverse_image_indexes a :
  indexes a (inverse_image_index a) ∧ no_empty_part (inverse_image_index a).
Proof.
  split; [split|].
  - intros lbl S HS z. apply inverse_image_index_lookup in HS as [_ ->].
    apply elem_of_members.
  - intros lbl Hin. exists (members a lbl). by apply inverse_image_index_lookup.
  - intros lbl S HS. apply inverse_image_index_lookup in HS as [Hin ->].
    apply elem_of_labelled in Hin as [z Hz]. apply elem_of_members in Hz. set_solver.
Qed.

(** Lines 61-63 build the inverse image partition. *)
Lemma group_parts_inverse_image a : group_parts a = inverse_image_index a.
Proof.
  destruct (group_parts_indexes a), (inverse_image_indexes a).
  by apply (indexes_unique a).
Qed.

(** ** The incremental update against the grouping from scratch *)

Lemma NoDup_fst_agree (fs : list (Z * value)) k v1 v2 :
  NoDup fs.*1 → (k, v1) ∈ fs → (k, v2) ∈ fs → v1 = v2.
Proof.
  induction fs as [|[k0 v0] rest IH]; simpl; intros Hnd H1 H2.
  - by apply elem_of_nil in H1.
  - apply NoDup_cons in Hnd as [Hfresh Hnd].
    apply elem_of_cons in H1 as [E1|H1], H2 as [E2|H2].
    + congruence.
    + exfalso. apply Hfresh. apply list_elem_of_fmap. exists (k, v2). simpl.
      split; [congruence|done].
    + exfalso. apply Hfresh. apply list_elem_of_fmap. exists (k, v1). simpl.
      split; [congruence|done].
    + by apply IH.
Qed.

Lemma indexes_default a m lbl z :
  indexes a m → z ∈ default ∅ (m !! lbl) ↔ labelled a lbl z.
Proof.
  intros [Hsets Hused]. destruct (m !! lbl) as [S|] eqn:HS; simpl.
  - by apply Hsets.
  - split; [intros Hz; by apply not_elem_of_empty in Hz|].
    intros Hl. apply labelled_elem_of, Hused in Hl as [? ?]. congruence.
Qed.

(** The set arithmetic of line 96, node by node. *)
Lemma flipped_members a a' fs lbl (P : gset Z) z :
  (∀ y, y ∈ P ↔ labelled a lbl y) →
  flip_set a fs → apply_flips a fs = Ok a' →
  (z ∈ P ∨ entering a fs lbl z) ∧ ¬ leaving a fs lbl z ↔ labelled a' lbl z.
Proof.
  intros HP [Hnd Hrange] Happly.
  assert (Hpos : Forall (λ kv : Z * value, 0 ≤ kv.1) fs).
  { eapply Forall_impl; [done|]. simpl. lia. }
  destruct (decide (z ∈ fs.*1)) as [Hkey|Hnokey].
  - apply list_elem_of_fmap in Hkey as ([k v] & -> & Hin). simpl.
    pose proof (proj1 (Forall_forall _ _) Hrange _ Hin) as Hk. simpl in Hk.
    destruct (lookup_lt_is_Some_2 a (Z.to_nat k)) as [old Hold]; [lia|].
    assert (Hget : list_getitem a k = Ok old) by (apply list_getitem_nonneg; [lia|done]).
    pose proof (apply_flips_flipped _ _ _ _ _ Hnd Hpos Happly Hin) as Hnew.
    assert (Hent : entering a fs lbl k ↔ v = lbl ∧ old ≠ lbl).
    { split.
      - intros (old' & Hin' & Hget' & Hne).
        rewrite (NoDup_fst_agree _ _ _ _ Hnd Hin Hin'). split; [done|congruence].
      - intros [-> Hne]. exists old. done. }
    assert (Hlv : leaving a fs lbl k ↔ old = lbl ∧ lbl ≠ v).
    { split.
      - intros (new & Hin' & Hget' & Hne).
        rewrite (NoDup_fst_agree _ _ _ _ Hnd Hin Hin'). split; [congruence|done].
      - intros [<- Hne]. exists v. done. }
    rewrite Hent, Hlv, HP. unfold labelled. rewrite Hold, Hnew.
    destruct (decide (old = lbl)), (decide (v = lbl)); naive_solver lia.
  - assert (Hent : ¬ entering a fs lbl z).
    { intros (old & Hin & _). apply Hnokey, list_elem_of_fmap. by exists (z, lbl). }
    assert (Hlv : ¬ leaving a fs lbl z).
    { intros (new & Hin & _). apply Hnokey, list_elem_of_fmap. by exists (z, new). }
    rewrite HP. unfold labelled.
    destruct (decide (0 ≤ z)) as [Hz|Hz]; [|naive_solver].
    rewrite (apply_flips_other fs a a' (Z.to_nat z) Hpos Happly)
      by (by rewrite Z2Nat.id).
    naive_solver.
Qed.

Lemma elem_of_map_to_list_fst (m : gmap value Flow) lbl :
  lbl ∈ (map_to_list m).*1 ↔ is_Some (m !! lbl).
Proof.
  rewrite list_elem_of_fmap. split.
  - intros ([k f] & -> & Hin). apply elem_of_map_to_list in Hin. by eexists.
  - intros [f Hf]. exists (lbl, f). split; [done|]. by apply elem_of_map_to_list.
Qed.

Lemma update_loop_flows (fl : gmap value Flow) pp pp' sp :
  update_loop (map_to_list fl) pp (items pp) = (pp', Ok sp) →
  ∀ lbl, default ∅ (sp !! lbl) =
           (default ∅ (items pp !! lbl) ∪ flow_in (rundmcmc_updaters.flow_at fl lbl))
             ∖ flow_out (rundmcmc_updaters.flow_at fl lbl).
Proof.
  intros Hloop lbl.
  destruct (update_loop_Ok _ _ _ _ _ (NoDup_fst_map_to_list fl) Hloop) as [Hkeys Hother].
  unfold rundmcmc_updaters.flow_at. destruct (fl !! lbl) as [flow|] eqn:Hflow; simpl.
  - apply elem_of_map_to_list in Hflow. by rewrite (Hkeys _ _ Hflow).
  - rewrite Hother.
    + set_solver.
    + rewrite elem_of_map_to_list_fst, Hflow. by intros [? ?].
Qed.

Lemma drop_empty_lookup m lbl S :
  drop_empty m !! lbl = Some S ↔ m !! lbl = Some S ∧ S ≠ ∅.
Proof.
  unfold drop_empty. rewrite map_lookup_filter_Some. simpl.
  split; intros [HS Hne]; (split; [done|]).
  - intros ->. rewrite size_empty in Hne. lia.
  - destruct (decide (size S = 0%nat)) as [Hzero|?]; [|lia].
    apply size_empty_inv, leibniz_equiv in Hzero. done.
Qed.

Lemma drop_empty_no_empty m : no_empty_part (drop_empty m).
Proof. intros lbl S HS. by apply drop_empty_lookup in HS as [_ ?]. Qed.

(** Whenever lines 88-99 produce a parts dictionary for a Flip Set, it is
    the grouping of the child's assignment from scratch. *)
Lemma update_parts_regroups (par : PState) fs a' pp' fl ef sp :
  indexes (assignment par) (items (parts par)) →
  flip_set (assignment par) fs →
  apply_flips (assignment par) fs = Ok a' →
  _update_parts par fs a' = (pp', Ok (fl, ef, sp)) →
  items sp = group_parts a' ∧ is_defaultdict sp = false.
Proof.
  intros Hidx Hfs Happly. unfold _update_parts.
  destruct (rundmcmc_updaters.flows_from_changes (assignment par) fs) as [flows|] eqn:Hflows;
    [|done].
  destruct (update_loop (map_to_list flows) (parts par) (items (parts par)))
    as [pp1 [sp1|]] eqn:Hloop; simpl; [|done].
  intros [= <- <- <- <-]. simpl. split; [|done].
  pose proof (update_loop_flows _ _ _ _ Hloop) as Hsp1.
  assert (Hmem : ∀ lbl z, z ∈ default ∅ (sp1 !! lbl) ↔ labelled a' lbl z).
  { intros lbl z. rewrite Hsp1.
    destruct (flows_loop_spec _ _ _ _ Hflows lbl) as (Hin & Hout & _).
    rewrite elem_of_difference, elem_of_union, Hin, Hout.
    rewrite <- (flipped_members (assignment par) a' fs lbl
                  (default ∅ (items (parts par) !! lbl)) z
                  (λ y, indexes_default _ _ lbl y Hidx) Hfs Happly).
    unfold rundmcmc_updaters.flow_at. rewrite lookup_empty. simpl. set_solver. }
  destruct (group_parts_indexes a') as [Hgi Hgne].
  apply (indexes_unique a'); [|apply drop_empty_no_empty|done..].
  split.
  - intros lbl S HS z. apply drop_empty_lookup in HS as [HS _].
    rewrite <- Hmem. by rewrite HS.
  - intros lbl Hin. apply elem_of_labelled in Hin as [z Hz].
    apply Hmem in Hz. destruct (sp1 !! lbl) as [S|] eqn:HS; simpl in Hz.
    + exists S. apply drop_empty_lookup. split; [done|]. set_solver.
    + by apply not_elem_of_empty in Hz.
Qed.

(** What lines 88-99 do with a Flip Set on a Partition whose parts index its
    assignment: either they return the inverse image partition of the
    child's assignment, or they raise KeyError, the parent's parts being a plain dict that does
    not list a label some flip assigns. *)
Lemma update_parts_outcome (par : PState) fs a' :
  indexes (assignment par) (items (parts par)) →
  flip_set (assignment par) fs →
  apply_flips (assignment par) fs = Ok a' →
  match (_update_parts par fs a').2 with
  | Ok (_, _, sp) => items sp = inverse_image_index a' ∧ is_defaultdict sp = false
  | Raise e =>
      e = KeyError ∧ is_defaultdict (parts par) = false
      ∧ ∃ key lbl, (key, lbl) ∈ fs ∧ items (parts par) !! lbl = None
  end.
Proof.
  intros Hidx Hfs Happly.
  destruct (_update_parts par fs a') as [pp' [[[fl ef] sp]|e]] eqn:Hup; simpl.
  - rewrite <- group_parts_inverse_image. by eapply update_parts_regroups.
  - unfold _update_parts in Hup.
    destruct (flows_from_changes_in_range (assignment par) fs) as [flows Hflows].
    { destruct Hfs as [_ Hrange]. eapply Forall_impl; [done|]. simpl. lia. }
    rewrite Hflows in Hup.
    destruct (update_loop (map_to_list flows) (parts par) (items (parts par)))
      as [pp1 [sp1|e1]] eqn:Hloop; simpl in Hup; [done|].
    injection Hup as <- <-.
    destruct (update_loop_Raise _ _ _ _ _ Hloop) as (-> & Hplain & _ & lbl & Hin & Hnone).
    split; [done|]. split; [done|].
    apply elem_of_map_to_list_fst, elem_of_dom in Hin.
    apply (flows_loop_spec _ _ _ _ Hflows lbl) in Hin as [Hin|(z & [Hz|Hz])].
    + by rewrite dom_empty_L in Hin.
    + destruct Hz as (old & Hz & _). by exists z, lbl.
    + destruct Hz as (new & _ & Hget & _).
      apply list_getitem_elem_of, Hidx in Hget as [S HS]. congruence.
Qed.

(** ** [merge], unfolded *)

(** The child that [__init__] assembles from the pieces of [_from_parent]:
    the updaters run on the child while it still carries the parent's
    [max_edge_cuts] (line 76), which line 34 then replaces. *)
Lemma merge_unfold par fs :
  merge par fs =
    if truthy (Some par) then
      match apply_flips (assignment (state par)) fs with
      | Raise e => (par, Raise e)
      | Ok a' =>
          match _update_parts (state par) fs a' with
          | (pp', Raise e) => (set_parts pp' par, Raise e)
          | (pp', Ok (fl, ef, sp)) =>
              let seen :=
                mkPState (graph (state par)) a' (Some (state (set_parts pp' par)))
                  (Some fs) (Some fl) (Some ef) (max_edge_cuts (state par)) sp in
              (set_parts pp' par,
               Ok {| state :=
                       set_max_edge_cuts
                         (rundmcmc_proposals.max_edge_cuts edge_cut_statistic
                            (graph (state par)) a') seen;
                     updaters := updaters par;
                     _cache := _update seen (updaters par) |})
          end
      end
    else (par, Raise AttributeError).
Proof.
  unfold merge, __init__.
  destruct (truthy (Some par)) eqn:Htruthy; [|done].
  unfold _from_parent.
  destruct (apply_flips (assignment (state par)) fs) as [a'|e]; [|done].
  destruct (_update_parts (state par) fs a') as [pp' [[[fl ef] sp]|e]]; done.
Qed.

Lemma update_parts_grown par fs a' pp' r :
  _update_parts par fs a' = (pp', r) → grown (parts par) pp'.
Proof.
  unfold _update_parts.
  destruct (rundmcmc_updaters.flows_from_changes (assignment par) fs) as [fl|e].
  - destruct (update_loop (map_to_list fl) (parts par) (items (parts par)))
      as [pp1 r1] eqn:Hloop.
    intros [= <- <-]. by eapply update_loop_grown.
  - intros [= <- <-]. apply grown_refl.
Qed.

Lemma update_parts_Raise par fs a' pp' e :
  _update_parts par fs a' = (pp', Raise e) → pp' = parts par.
Proof.
  unfold _update_parts.
  destruct (rundmcmc_updaters.flows_from_changes (assignment par) fs) as [fl|e'].
  - destruct (update_loop (map_to_list fl) (parts par) (items (parts par)))
      as [pp1 [sp1|e1]] eqn:Hloop; simpl; [done|].
    intros [= <- <-]. by destruct (update_loop_Raise _ _ _ _ _ Hloop) as (_ & _ & -> & _).
  - by intros [= <- <-].
Qed.

(** A failed [merge] leaves the parent object as it was. *)
Lemma merge_Raise_parent par fs par' e :
  merge par fs = (par', Raise e) → par' = par.
Proof.
  rewrite merge_unfold. destruct (truthy (Some par)); [|by intros [= <- _]].
  destruct (apply_flips (assignment (state par)) fs) as [a'|e']; [|by intros [= <- _]].
  destruct (_update_parts (state par) fs a') as [pp' [[[fl ef] sp]|e']] eqn:Hup; [done|].
  intros [= <- _]. rewrite (update_parts_Raise _ _ _ _ _ Hup). apply set_parts_same.
Qed.

(** [merge] changes nothing of the parent but, possibly, its parts
    dictionary, which can only grow by empty sets. *)
Lemma merge_parent_frame par fs par' r :
  merge par fs = (par', r) →
  ∃ pp', par' = set_parts pp' par ∧ grown (parts (state par)) pp'.
Proof.
  rewrite merge_unfold. destruct (truthy (Some par)).
  - destruct (apply_flips (assignment (state par)) fs) as [a'|e'].
    + destruct (_update_parts (state par) fs a') as [pp' r'] eqn:Hup.
      intros Hmerge. exists pp'. split; [|by eapply update_parts_grown].
      revert Hmerge.
      destruct r' as [[[fl ef] sp]|e']; by intros [= <- _].
    + intros [= <- _]. exists (parts (state par)).
      split; [by rewrite set_parts_same|apply grown_refl].
  - intros [= <- _]. exists (parts (state par)).
    split; [by rewrite set_parts_same|apply grown_refl].
Qed.

(** ** The cache (lines 101-106 and 120-128) *)

Lemma update_fold self l : ∀ cache key,
  foldl (update_step self) cache l !! key =
    match cache !! key with
    | Some v => Some v
    | None => (λ f, f self) <$> (list_to_map l : gmap string (PState → value)) !! key
    end.
Proof.
  induction l as [|[k f] rest IH]; intros cache key; simpl.
  - rewrite lookup_empty. by destruct (cache !! key).
  - rewrite IH. unfold update_step. simpl.
    destruct (decide (is_Some (cache !! k))) as [[v Hv]|Hnone].
    + destruct (cache !! key) eqn:Hkey; [done|].
      rewrite lookup_insert_ne; [done|congruence].
    + apply eq_None_not_Some in Hnone.
      destruct (decide (k = key)) as [->|Hne].
      * by rewrite !lookup_insert_eq, Hnone.
      * by rewrite !lookup_insert_ne.
Qed.

(** [_update] stores, for every key of the registry, the updater's value
    on the partition. *)
Lemma update_eq self (ups : gmap string (PState → value)) :
  _update self ups = (λ f, f self) <$> ups.
Proof.
  apply map_eq. intros key. unfold _update.
  by rewrite update_fold, lookup_empty, list_to_map_to_list, lookup_fmap.
Qed.

Lemma getitem_cached p key v :
  _cache p !! key = Some v → __getitem__ p key = (p, Ok v).
Proof. intros Hv. unfold __getitem__. by rewrite Hv. Qed.

Lemma getitem_state p key p' r :
  __getitem__ p key = (p', r) → state p' = state p ∧ updaters p' = updaters p.
Proof.
  unfold __getitem__. destruct (_cache p !! key); [by intros [= <- _]|].
  destruct (updaters p !! key); by intros [= <- _].
Qed.

(** ** What holds of every Partition object *)

Lemma root_unfold g name ups :
  __init__ (Some g) name ups None None =
    let G := networkx.convert_node_labels_to_integers g "OLDID" in
    let A :=
      if truthy_name name
      then (λ n, default VNone (networkx.get_node_attributes G (default "" name) n))
             <$> seq 0 (length (nx_nodes g))
      else (λ _, VInt 0) <$> nx_nodes g in
    let U :=
      match ups with
      | None => ∅
      | Some u => if decide (size u = 0%nat) then ∅ else u
      end in
    let mec := rundmcmc_proposals.max_edge_cuts edge_cut_statistic G A in
    let self :=
      mkPState G A None None None None mec
        {| is_defaultdict := true; items := group_parts A |} in
    (None, Ok {| state := self; updaters := U; _cache := _update self U |}).
Proof. done. Qed.

Lemma indexes_grown a d d' : indexes a (items d) → grown d d' → indexes a (items d').
Proof.
  intros [Hsets Hused] Hgrown. split.
  - intros lbl S HS z. destruct Hgrown as [_ Hg].
    destruct (Hg lbl) as [Heq|(Hnone & Hempty & _)].
    + rewrite Heq in HS. by apply Hsets.
    + rewrite Hempty in HS. injection HS as <-.
      split; [intros Hz; by apply not_elem_of_empty in Hz|].
      intros Hl. apply labelled_elem_of, Hused in Hl as [? ?]. congruence.
  - intros lbl Hin. destruct (Hused lbl Hin) as [S HS].
    exists S. by eapply grown_lookup_Some.
Qed.

Lemma well_formed_root g name ups root :
  __init__ (Some g) name ups None None = (None, Ok root) → well_formed root.
Proof.
  rewrite root_unfold. intros [= <-]. unfold well_formed. simpl.
  split_and!.
  - apply group_parts_indexes.
  - done.
  - done.
  - intros key. rewrite update_eq, lookup_fmap. intros [v Hv].
    destruct (_ !! key) as [f|]; [by eexists|done].
Qed.

Lemma well_formed_child par fs par' child :
  well_formed par → flip_set (assignment (state par)) fs →
  merge par fs = (par', Ok child) → well_formed child.
Proof.
  intros (Hidx & _) Hfs. rewrite merge_unfold.
  destruct (truthy (Some par)); [|done].
  destruct (apply_flips (assignment (state par)) fs) as [a'|e'] eqn:Happly; [|done].
  destruct (_update_parts (state par) fs a') as [pp' [[[fl ef] sp]|e']] eqn:Hup; [|done].
  intros [= <- <-]. unfold well_formed. simpl.
  destruct (update_parts_regroups _ _ _ _ _ _ _ Hidx Hfs Happly Hup) as [Hitems Hplain].
  rewrite Hitems. split_and!.
  - apply group_parts_indexes.
  - intros _. apply group_parts_indexes.
  - done.
  - intros key. rewrite update_eq, lookup_fmap. intros [v Hv].
    destruct (_ !! key) as [f|]; [by eexists|done].
Qed.

Lemma well_formed_parent par fs par' r :
  well_formed par → merge par fs = (par', r) → well_formed par'.
Proof.
  intros (Hidx & Hne & Hmec & Hcache) Hmerge.
  destruct (merge_parent_frame _ _ _ _ Hmerge) as (pp' & -> & Hgrown).
  unfold well_formed. simpl. split_and!; [|intros Hplain|done..].
  - by eapply indexes_grown.
  - assert (is_defaultdict (parts (state par)) = false) as Hpar
      by (destruct Hgrown; congruence).
    rewrite (grown_plain_dict _ _ Hgrown Hpar). by apply Hne.
Qed.

Lemma well_formed_getitem p key p' r :
  well_formed p → __getitem__ p key = (p', r) → well_formed p'.
Proof.
  intros (Hidx & Hne & Hmec & Hcache). unfold __getitem__.
  destruct (_cache p !! key) as [v|] eqn:Hkey; [by intros [= <- _]|].
  destruct (updaters p !! key) as [f|] eqn:Hf; intros [= <- _]; [|done].
  unfold well_formed. simpl. split_and!; [done..|].
  intros key'. destruct (decide (key = key')) as [<-|Hdiff].
  - by exists f.
  - rewrite lookup_insert_ne by done. apply Hcache.
Qed.

Lemma reachable_well_formed p : reachable p → well_formed p.
Proof.
  induction 1 as [g name ups root Hroot
                 |par fs par' child _ IH Hfs Hmerge
                 |par fs par' r _ IH Hmerge
                 |p key p' r _ IH Hget].
  - by eapply well_formed_root.
  - by eapply well_formed_child.
  - by eapply well_formed_parent.
  - by eapply well_formed_getitem.
Qed.

(** The parts of a reachable Partition cover the node ids, are pairwise
    disjoint and, on a child, are not empty. *)
Lemma reachable_parts_partition p :
  reachable p →
  let m := items (parts (state p)) in
  (∀ z, 0 ≤ z < Z.of_nat (length (assignment (state p))) ↔
        ∃ lbl S, m !! lbl = Some S ∧ z ∈ S)
  ∧ (∀ l1 l2 S1 S2, l1 ≠ l2 → m !! l1 = Some S1 → m !! l2 = Some S2 → S1 ## S2)
  ∧ (is_defaultdict (parts (state p)) = false → no_empty_part m).
Proof.
  intros Hreach. destruct (reachable_well_formed _ Hreach) as ([Hsets Hused] & Hne & _).
  simpl. split_and!; [|intros l1 l2 S1 S2 Hdiff H1 H2|done].
  - intros z. split.
    + intros Hz.
      destruct (lookup_lt_is_Some_2 (assignment (state p)) (Z.to_nat z)) as [lbl Hlbl];
        [lia|].
      destruct (Hused lbl) as [S HS]; [by eapply list_elem_of_lookup_2|].
      exists lbl, S. split; [done|]. apply (Hsets _ _ HS). split; [lia|done].
    + intros (lbl & S & HS & Hz). apply (Hsets _ _ HS) in Hz.
      by eapply labelled_range.
  - apply elem_of_disjoint. intros z Hz1 Hz2.
    apply (Hsets _ _ H1) in Hz1 as [_ Hz1]. apply (Hsets _ _ H2) in Hz2 as [_ Hz2].
    congruence.
Qed.

(** * The claims *)

Lemma crosses_parts_true p u v :
  crosses_parts p (u, v) = Ok true ↔
    ∃ lu lv, list_getitem (assignment (state p)) u = Ok lu
             ∧ list_getitem (assignment (state p)) v = Ok lv ∧ lu ≠ lv.
Proof.
  unfold crosses_parts. simpl.
  destruct (list_getitem (assignment (state p)) u) as [lu|] eqn:Hu; simpl.
  - destruct (list_getitem (assignment (state p)) v) as [lv|] eqn:Hv; simpl.
    + split.
      * intros [= Hb]. apply bool_decide_eq_true in Hb. by exists lu, lv.
      * intros (? & ? & [= <-] & [= <-] & Hne). by rewrite bool_decide_eq_true_2.
    + split; [done|]. by intros (? & ? & _ & ? & _).
  - split; [done|]. by intros (? & ? & ? & _).
Qed.

(** C9.  End-to-end scenario: the root over the path 0 - 1 - 2 - 3 with
    every node in part "A" has no crossing edge; the flip
    {2: "B", 3: "B"} yields a child whose parts are exactly
    {"A": {0, 1}, "B": {2, 3}}, on which edge (1, 2) crosses parts and
    edges (0, 1) and (2, 3) do not; and an edge crosses parts exactly when
    its two endpoints carry different labels in the assignment. *)
Theorem end_to_end_scenario :
  ∃ root root' child,
    __init__ (Some path4) (Some "district"%string) None None None = (None, Ok root)
    ∧ edges (graph (state root)) = [(0, 1); (1, 2); (2, 3)]
    ∧ assignment (state root) = [VStr "A"; VStr "A"; VStr "A"; VStr "A"]
    ∧ Forall (λ e, crosses_parts root e = Ok false) (edges (graph (state root)))
    ∧ merge root [(2, VStr "B"); (3, VStr "B")] = (root', Ok child)
    ∧ items (parts (state child))
        = {[ VStr "A" := {[0; 1]}; VStr "B" := {[2; 3]} ]}
    ∧ crosses_parts child (1, 2) = Ok true
    ∧ crosses_parts child (0, 1) = Ok false
    ∧ crosses_parts child (2, 3) = Ok false
    ∧ ∀ (p : Partition) u v,
        crosses_parts p (u, v) = Ok true ↔
          ∃ lu lv, list_getitem (assignment (state p)) u = Ok lu
                   ∧ list_getitem (assignment (state p)) v = Ok lv ∧ lu ≠ lv.
Proof.
  eexists _, _, _. split; [apply root_unfold|].
  split; [reflexivity|]. split; [reflexivity|].
  split; [repeat constructor|].
  split; [reflexivity|].
  split; [reflexivity|].
  split_and!; [reflexivity..|]. apply crosses_parts_true.
Qed.

Lemma init_cache g name ups par fs p :
  (__init__ g name ups par fs).2 = Ok p →
  ∃ seen, _cache p = (λ f, f seen) <$> updaters p.
Proof.
  unfold __init__.
  match goal with
  | |- context [let '(_, _) := ?X in _] => destruct X as [par' [[self reg]|e]]
  end; simpl; [|done].
  intros [= <-]. simpl. exists self. apply update_eq.
Qed.

(** C6.  A lookup of a key that is neither in the cache nor in the
    registry fails with the KeyError of the registry lookup (the spec's
    UnknownUpdaterError) and changes nothing; this is the case of every
    key on a Partition built, by [__init__], with an empty registry. *)
Theorem getitem_unknown_key (p : Partition) (key : string) :
  (_cache p !! key = None ∧ updaters p !! key = None)
  ∨ (updaters p = ∅
     ∧ ∃ g name ups par fs, (__init__ g name ups par fs).2 = Ok p) →
  __getitem__ p key = (p, Raise KeyError).
Proof.
  intros Hkey.
  assert (_cache p !! key = None ∧ updaters p !! key = None) as [Hcache Hreg].
  { destruct Hkey as [?|(Hempty & g & name & ups & par & fs & Hinit)]; [done|].
    destruct (init_cache _ _ _ _ _ _ Hinit) as [seen ->].
    by rewrite Hempty, fmap_empty. }
  unfold __getitem__. by rewrite Hcache, Hreg.
Qed.

(** C10.  [assignment_by_nodeid] never returns: on every Partition it
    raises NameError, when line 133 reads the unbound name [graph]. *)
Theorem assignment_by_nodeid_raises (p : Partition) :
  assignment_by_nodeid p = Raise NameError.
Proof.
  unfold assignment_by_nodeid, read_name.
  rewrite decide_False; [done|].
  intros Hin.
  repeat (apply elem_of_cons in Hin as [Heq|Hin]; [discriminate Heq|]).
  by apply elem_of_nil in Hin.
Qed.

(** C3, as the code has it.  The cache of a child is built anew by
    [_update] at construction: it holds, for every key of the registry,
    the updater's value on the child (as the child is when [_update] runs,
    line 32: complete but for [max_edge_cuts], still the parent's); no
    entry comes from the parent's cache, and a later lookup of a
    registered key returns the stored value and leaves the child as it
    is. *)
Theorem child_cache_filled_at_construction par fs par' child :
  merge par fs = (par', Ok child) →
  let seen := set_max_edge_cuts (max_edge_cuts (state par)) (state child) in
  updaters child = updaters par
  ∧ _cache child = (λ f, f seen) <$> updaters par
  ∧ ∀ key f, updaters par !! key = Some f →
             __getitem__ child key = (child, Ok (f seen)).
Proof.
  rewrite merge_unfold. destruct (truthy (Some par)); [|done].
  destruct (apply_flips (assignment (state par)) fs) as [a'|e']; [|done].
  destruct (_update_parts (state par) fs a') as [pp' [[[fl ef] sp]|e']]; [|done].
  intros [= <- <-]. simpl. unfold set_max_edge_cuts. simpl.
  split; [done|]. split; [apply update_eq|].
  intros key f Hf. apply getitem_cached. simpl.
  by rewrite update_eq, lookup_fmap, Hf.
Qed.

Lemma update_parts_succeeds par fs a' :
  Forall (λ kv : Z * value,
            - Z.of_nat (length (assignment par)) ≤ kv.1
            < Z.of_nat (length (assignment par))) fs →
  is_defaultdict (parts par) = true
  ∨ (∀ lbl, lbl ∈ assignment par ∨ lbl ∈ fs.*2 → is_Some (items (parts par) !! lbl)) →
  is_Ok (_update_parts par fs a').2.
Proof.
  intros Hrange Hknown. unfold _update_parts.
  destruct (flows_from_changes_in_range _ _ Hrange) as [fl Hfl]. rewrite Hfl.
  pose proof (update_loop_succeeds (map_to_list fl) (parts par) (items (parts par))) as Hloop.
  destruct (update_loop (map_to_list fl) (parts par) (items (parts par))) as [pp' r].
  simpl in *. destruct Hloop as [sp ->]; [|by eexists].
  destruct Hknown as [?|Hknown]; [by left|right].
  intros lbl Hlbl. apply elem_of_map_to_list_fst, elem_of_dom in Hlbl.
  apply (flows_loop_spec _ _ _ _ Hfl lbl) in Hlbl as [Hlbl|(z & [Hz|Hz])].
  - by rewrite dom_empty_L in Hlbl.
  - destruct Hz as (old & Hin & _). apply Hknown. right.
    apply list_elem_of_fmap. by exists (z, lbl).
  - destruct Hz as (new & _ & Hget & _). apply Hknown. left.
    by eapply list_getitem_elem_of.
Qed.

(** C4.  For a parent with at least one part and [n] nodes, a flip with a
    key [k >= n] or [k < -n] makes [merge] fail with the IndexError of the
    list assignment of line 71, the parent unchanged; and when every key is
    a node id, in [0, n), [merge] returns a child provided the parent's
    parts dictionary is a defaultdict (a root) or lists every label in use
    and every label of the flips.  Node ids alone do not make it succeed:
    on the child of the end-to-end scenario, over the nodes 0..3, the Flip
    Set {1: "C"} has a node id for its only key, and [merge] raises the
    KeyError of line 96 instead of returning a child. *)
Theorem valid_flips_raise_KeyError :
  (∀ par fs,
     truthy (Some par) = true →
     Exists (λ kv : Z * value,
               kv.1 < - Z.of_nat (length (assignment (state par)))
               ∨ Z.of_nat (length (assignment (state par))) ≤ kv.1) fs →
     merge par fs = (par, Raise IndexError))
  ∧ (∀ par fs,
       truthy (Some par) = true →
       Forall (λ kv : Z * value,
                 0 ≤ kv.1 < Z.of_nat (length (assignment (state par)))) fs →
       is_defaultdict (parts (state par)) = true
       ∨ (∀ lbl, lbl ∈ assignment (state par) ∨ lbl ∈ fs.*2 →
                 is_Some (items (parts (state par)) !! lbl)) →
       is_Ok (merge par fs).2)
  ∧ ∃ root root' child,
      __init__ (Some path4) (Some "district"%string) None None None = (None, Ok root)
      ∧ merge root [(2, VStr "B"); (3, VStr "B")] = (root', Ok child)
      ∧ length (nodes (graph (state child))) = 4%nat
      ∧ length (assignment (state child)) = 4%nat
      ∧ Forall (λ kv : Z * value, 0 ≤ kv.1 < 4) [(1, VStr "C")]
      ∧ merge child [(1, VStr "C")] = (child, Raise KeyError).
Proof.
  split; [|split].
  - intros par fs Htruthy Hout. rewrite merge_unfold, Htruthy.
    by rewrite apply_flips_outside.
  - intros par fs Htruthy Hrange Hknown. rewrite merge_unfold, Htruthy.
    assert (Hrange' : Forall (λ kv : Z * value,
                        - Z.of_nat (length (assignment (state par))) ≤ kv.1
                        < Z.of_nat (length (assignment (state par)))) fs).
    { eapply Forall_impl; [exact Hrange|]. simpl. lia. }
    destruct (apply_flips_in_range _ _ Hrange') as [a' ->].
    pose proof (update_parts_succeeds (state par) fs a' Hrange' Hknown) as Hup.
    destruct (_update_parts (state par) fs a') as [pp' r]. simpl in Hup.
    destruct Hup as [[[fl ef] sp] ->]. by eexists.
  - eexists _, _, _. split; [apply root_unfold|].
    split; [reflexivity|]. split; [reflexivity|]. split; [reflexivity|].
    split; [repeat constructor; simpl; lia|]. reflexivity.
Qed.



(** ** Flips that change nothing *)

Lemma apply_flips_noop fs : ∀ a,
  Forall (λ kv : Z * value, list_getitem a kv.1 = Ok kv.2) fs → apply_flips a fs = Ok a.
Proof.
  induction fs as [|[key val] rest IH]; intros a Hfs; simpl; [done|].
  apply Forall_cons in Hfs as [Hkey Hrest]. simpl in Hkey.
  unfold list_setitem. unfold list_getitem in Hkey.
  destruct (py_index (length a) key) as [k|]; simpl in *; [|done].
  destruct (a !! k) as [x|] eqn:Hk; [|done]. injection Hkey as ->.
  rewrite list_insert_id by done. by apply IH.
Qed.

Lemma flows_loop_noop a fs : ∀ fl,
  Forall (λ kv : Z * value, list_getitem a kv.1 = Ok kv.2) fs →
  rundmcmc_updaters.flows_loop a fs fl = Ok fl.
Proof.
  induction fs as [|[key val] rest IH]; intros fl Hfs; simpl; [done|].
  apply Forall_cons in Hfs as [Hkey Hrest]. simpl in Hkey.
  rewrite Hkey. simpl. rewrite decide_True by done. by apply IH.
Qed.

Lemma drop_empty_id m : no_empty_part m → drop_empty m = m.
Proof.
  intros Hne. apply map_eq. intros lbl.
  destruct (m !! lbl) as [S|] eqn:HS.
  - apply drop_empty_lookup. split; [done|]. by eapply Hne.
  - unfold drop_empty. by apply map_lookup_filter_None_2; left.
Qed.

(** Flips that map nodes to their current label, on a Partition that has
    a part and no empty part: the parent is unchanged and the child has
    the parent's assignment, parts and [max_edge_cuts]. *)
Lemma noop_flips_stable par fs :
  well_formed par → truthy (Some par) = true →
  no_empty_part (items (parts (state par))) →
  Forall (λ kv : Z * value, list_getitem (assignment (state par)) kv.1 = Ok kv.2) fs →
  ∃ child,
    merge par fs = (par, Ok child)
    ∧ assignment (state child) = assignment (state par)
    ∧ items (parts (state child)) = items (parts (state par))
    ∧ max_edge_cuts (state child) = max_edge_cuts (state par).
Proof.
  intros (_ & _ & Hmec & _) Htruthy Hne Hnoop.
  rewrite merge_unfold, Htruthy, (apply_flips_noop _ _ Hnoop).
  unfold _update_parts, rundmcmc_updaters.flows_from_changes.
  rewrite (flows_loop_noop _ _ _ Hnoop), map_to_list_empty. simpl.
  rewrite set_parts_same. eexists. split; [done|]. simpl.
  split; [done|]. split; [by apply drop_empty_id|]. by rewrite Hmec.
Qed.

(** A [merge] called on a child (a plain dict) leaves it as it was. *)
Lemma merge_plain_parent par fs par' r :
  is_defaultdict (parts (state par)) = false → merge par fs = (par', r) → par' = par.
Proof.
  intros Hplain Hmerge.
  destruct (merge_parent_frame _ _ _ _ Hmerge) as (pp' & -> & Hgrown).
  rewrite (grown_plain_dict _ _ Hgrown Hplain). apply set_parts_same.
Qed.

(** A Partition without parts (the root over the graph without nodes) is
    false in [if parent:], so [merge] on it runs [_first_time] with no
    graph and fails, whatever the flips. *)
Lemma merge_without_parts par fs :
  __len__ par = 0%nat → merge par fs = (par, Raise AttributeError).
Proof.
  intros Hlen. rewrite merge_unfold. unfold truthy. by rewrite Hlen.
Qed.

Lemma merge_on_empty_root :
  ∃ root,
    __init__ (Some empty_graph) None None None None = (None, Ok root)
    ∧ __len__ root = 0%nat
    ∧ merge root [] = (root, Raise AttributeError).
Proof.
  eexists. split; [apply root_unfold|]. split; [reflexivity|].
  by apply merge_without_parts.
Qed.

(** ** Where the code departs from the claims *)

(** C1.  The child of the end-to-end scenario has parts
    {"A": {0, 1}, "B": {2, 3}} in a plain dict.  The Flip Set {0: "C"} on
    it names a label its parts do not list: line 96 reads
    [self.parent.parts["C"]] and raises KeyError, so the incremental
    update produces no dictionary, where grouping the flipped assignment
    from scratch gives {"C": {0}, "A": {1}, "B": {2, 3}}. *)
Theorem new_label_on_child_raises :
  ∃ root root' child,
    __init__ (Some path4) (Some "district"%string) None None None = (None, Ok root)
    ∧ merge root [(2, VStr "B"); (3, VStr "B")] = (root', Ok child)
    ∧ reachable child
    ∧ flip_set (assignment (state child)) [(0, VStr "C")]
    ∧ apply_flips (assignment (state child)) [(0, VStr "C")]
        = Ok [VStr "C"; VStr "A"; VStr "B"; VStr "B"]
    ∧ _update_parts (state child) [(0, VStr "C")]
        [VStr "C"; VStr "A"; VStr "B"; VStr "B"]
        = (parts (state child), Raise KeyError)
    ∧ merge child [(0, VStr "C")] = (child, Raise KeyError)
    ∧ inverse_image_index [VStr "C"; VStr "A"; VStr "B"; VStr "B"]
        = {[ VStr "C" := {[0]}; VStr "A" := {[1]}; VStr "B" := {[2; 3]} ]}.
Proof.
  eexists _, _, _. split; [apply root_unfold|].
  split; [reflexivity|].
  split.
  { eapply (reachable_child _ [(2, VStr "B"); (3, VStr "B")]).
    - eapply (reachable_root path4 (Some "district"%string) None). apply root_unfold.
    - split; simpl.
      + repeat constructor; set_solver.
      + repeat constructor; simpl; lia.
    - reflexivity. }
  split.
  { split; simpl.
    - apply NoDup_singleton.
    - repeat constructor; simpl; lia. }
  repeat split; reflexivity.
Qed.

(** C2.  After the transition of the end-to-end scenario the root object,
    a defaultdict whose key "B" line 96 has read, lists the part "B" with
    an empty member set. *)
Theorem root_gains_empty_part :
  ∃ root root' child,
    __init__ (Some path4) (Some "district"%string) None None None = (None, Ok root)
    ∧ merge root [(2, VStr "B"); (3, VStr "B")] = (root', Ok child)
    ∧ reachable root'
    ∧ items (parts (state root')) !! VStr "B" = Some ∅
    ∧ ¬ no_empty_part (items (parts (state root'))).
Proof.
  eexists _, _, _. split; [apply root_unfold|].
  split; [reflexivity|].
  split.
  { eapply (reachable_parent _ [(2, VStr "B"); (3, VStr "B")]).
    - eapply (reachable_root path4 (Some "district"%string) None). apply root_unfold.
    - reflexivity. }
  split; [reflexivity|].
  intros Hne. by apply (Hne (VStr "B") ∅).
Qed.

(** C7.  The transition of the end-to-end scenario changes the parent:
    the root's parts dictionary is {"A": {0, 1, 2, 3}} before the call and
    {"A": {0, 1, 2, 3}, "B": set()} after it, and its length goes from 1
    to 2. *)
Theorem merge_changes_root_parts :
  ∃ root root' child,
    __init__ (Some path4) (Some "district"%string) None None None = (None, Ok root)
    ∧ merge root [(2, VStr "B"); (3, VStr "B")] = (root', Ok child)
    ∧ items (parts (state root)) = {[ VStr "A" := {[0; 1; 2; 3]} ]}
    ∧ items (parts (state root')) = {[ VStr "A" := {[0; 1; 2; 3]}; VStr "B" := ∅ ]}
    ∧ __len__ root = 1%nat
    ∧ __len__ root' = 2%nat
    ∧ assignment (state root') = assignment (state root).
Proof.
  eexists _, _, _. split; [apply root_unfold|].
  repeat split; reflexivity.
Qed.

(** C8.  On the root as the transition of the end-to-end scenario leaves
    it, the Flip Set {0: "A"} maps node 0 to its current label; the child
    has the parent's assignment but not its parts: the child lists
    {"A": {0, 1, 2, 3}}, the parent also the empty part "B". *)
Theorem noop_flips_after_new_label :
  ∃ root root' child root'' child',
    __init__ (Some path4) (Some "district"%string) None None None = (None, Ok root)
    ∧ merge root [(2, VStr "B"); (3, VStr "B")] = (root', Ok child)
    ∧ reachable root'
    ∧ list_getitem (assignment (state root')) 0 = Ok (VStr "A")
    ∧ merge root' [(0, VStr "A")] = (root'', Ok child')
    ∧ assignment (state child') = assignment (state root')
    ∧ items (parts (state child')) = {[ VStr "A" := {[0; 1; 2; 3]} ]}
    ∧ items (parts (state root'')) = {[ VStr "A" := {[0; 1; 2; 3]}; VStr "B" := ∅ ]}
    ∧ items (parts (state child')) ≠ items (parts (state root'')).
Proof.
  eexists _, _, _, _, _. split; [apply root_unfold|].
  split; [reflexivity|].
  split.
  { eapply (reachable_parent _ [(2, VStr "B"); (3, VStr "B")]).
    - eapply (reachable_root path4 (Some "district"%string) None). apply root_unfold.
    - reflexivity. }
  split; [reflexivity|]. split; [reflexivity|].
  split; [reflexivity|]. split; [reflexivity|]. split; [reflexivity|].
  intros Heq. apply (f_equal (λ m : gmap value (gset Z), m !! VStr "B")) in Heq.
  by vm_compute in Heq.
Qed.

(** * Further properties of the class *)

(** ** What [merge] leaves alone *)

(** X3.  [merge] changes nothing of the object it is called on but,
    possibly, its parts dictionary, which can only gain empty sets under
    new keys; when the call fails, or the object is a child (a plain dict),
    it is left exactly as it was. *)
Theorem merge_frame par fs :
  let out := merge par fs in
  out.1 = set_parts (parts (state out.1)) par
  ∧ grown (parts (state par)) (parts (state out.1))
  ∧ (is_Raise out.2 ∨ is_defaultdict (parts (state par)) = false → out.1 = par).
Proof.
  simpl. destruct (merge par fs) as [par' r] eqn:Hmerge. simpl.
  destruct (merge_parent_frame _ _ _ _ Hmerge) as (pp' & -> & Hgrown).
  split; [done|]. split; [done|].
  intros [[e ->]|Hplain].
  - rewrite <- (merge_Raise_parent _ _ _ _ Hmerge) at 2. done.
  - rewrite (grown_plain_dict _ _ Hgrown Hplain). apply set_parts_same.
Qed.

(** ** The child's parts, flow by flow (lines 93-99) *)

Lemma drop_empty_default (m : gmap value (gset Z)) lbl :
  drop_empty m !! lbl =
    if decide (default ∅ (m !! lbl) = ∅) then None else Some (default ∅ (m !! lbl)).
Proof.
  destruct (m !! lbl) as [S|] eqn:HS; simpl.
  - case_decide as Hempty.
    + destruct (drop_empty m !! lbl) as [S'|] eqn:HS'; [|done].
      apply drop_empty_lookup in HS' as [HS' Hne]. congruence.
    + apply drop_empty_lookup. done.
  - rewrite decide_True by done.
    destruct (drop_empty m !! lbl) as [S'|] eqn:HS'; [|done].
    apply drop_empty_lookup in HS' as [HS' _]. congruence.
Qed.

(** X5.  The parts of a child, in terms of the flows it records: under a
    label with a flow the parent's members (none, if the parent does not
    list the label) plus the nodes entering minus the nodes leaving, under
    any other label the parent's members; a label whose set comes out empty
    is not listed, and the dictionary is a plain dict. *)
Theorem child_parts_from_flows par fs par' child :
  merge par fs = (par', Ok child) →
  is_defaultdict (parts (state child)) = false
  ∧ ∃ fl, flows (state child) = Some fl
    ∧ ∀ lbl,
        let members := default ∅ (items (parts (state par)) !! lbl) in
        let S := match fl !! lbl with
                 | Some flow => (members ∪ flow_in flow) ∖ flow_out flow
                 | None => members
                 end in
        items (parts (state child)) !! lbl = if decide (S = ∅) then None else Some S.
Proof.
  rewrite merge_unfold. destruct (truthy (Some par)); [|done].
  destruct (apply_flips (assignment (state par)) fs) as [a'|e']; [|done].
  unfold _update_parts.
  destruct (rundmcmc_updaters.flows_from_changes (assignment (state par)) fs)
    as [fl|e']; [|done].
  destruct (update_loop (map_to_list fl) (parts (state par)) (items (parts (state par))))
    as [pp1 [sp1|e1]] eqn:Hloop; simpl; [|done].
  intros [= <- <-]. simpl. split; [done|]. exists fl. split; [done|].
  intros lbl. rewrite drop_empty_default, (update_loop_flows _ _ _ _ Hloop lbl).
  unfold rundmcmc_updaters.flow_at.
  destruct (fl !! lbl) as [flow|]; simpl; [done|].
  set (M := default ∅ (items (parts (state par)) !! lbl)).
  assert ((M ∪ ∅) ∖ ∅ = M) as -> by set_solver. done.
Qed.

(** ** The cache after construction and under lookups *)

(** X6.  A lookup that returns a value stores it: the same lookup on the
    object as the first one leaves it returns the same value and changes
    nothing more; a lookup touches neither the partition's other attributes
    nor the other keys of the cache, and a failed lookup changes nothing. *)
Theorem getitem_idempotent p key :
  let out := __getitem__ p key in
  state out.1 = state p ∧ updaters out.1 = updaters p
  ∧ (∀ key', key' ≠ key → _cache out.1 !! key' = _cache p !! key')
  ∧ match out.2 with
    | Ok v => _cache out.1 !! key = Some v ∧ __getitem__ out.1 key = (out.1, Ok v)
    | Raise e => e = KeyError ∧ out.1 = p
    end.
Proof.
  simpl. destruct (__getitem__ p key) as [p' r] eqn:Hget. simpl.
  unfold __getitem__ in Hget.
  destruct (_cache p !! key) as [v|] eqn:Hcache.
  - injection Hget as <- <-.
    split; [done|]. split; [done|]. split; [done|]. split; [done|].
    by apply getitem_cached.
  - destruct (updaters p !! key) as [f|] eqn:Hf; injection Hget as <- <-; simpl.
    + split; [done|]. split; [done|]. split.
      * intros key' Hne. by rewrite lookup_insert_ne.
      * split; [by rewrite lookup_insert_eq|].
        apply getitem_cached. simpl. by rewrite lookup_insert_eq.
    + done.
Qed.

(** X7.  A Partition as [__init__] returns it, root or child, holds a
    cached value for every key of its registry: a lookup on it never runs
    an updater and never changes the object; it returns the stored value of
    a registered key and raises KeyError for any other key. *)
Theorem getitem_after_init g name ups par fs p :
  (__init__ g name ups par fs).2 = Ok p →
  ∀ key,
    (__getitem__ p key).1 = p
    ∧ match updaters p !! key with
      | Some _ => ∃ v, _cache p !! key = Some v ∧ (__getitem__ p key).2 = Ok v
      | None => (__getitem__ p key).2 = Raise KeyError
      end.
Proof.
  intros Hinit key. destruct (init_cache _ _ _ _ _ _ Hinit) as [seen Hcache].
  unfold __getitem__. rewrite Hcache, lookup_fmap.
  destruct (updaters p !! key) as [f|]; simpl; [|done].
  split; [done|]. by exists (f seen).
Qed.

(** ** [crosses_parts] (lines 117-118) *)

Lemma list_getitem_outcome {A} (l : list A) i :
  (- Z.of_nat (length l) ≤ i < Z.of_nat (length l) ∧ is_Ok (list_getitem l i))
  ∨ (¬ (- Z.of_nat (length l) ≤ i < Z.of_nat (length l))
     ∧ list_getitem l i = Raise IndexError).
Proof.
  destruct (decide (- Z.of_nat (length l) ≤ i < Z.of_nat (length l))) as [Hin|Hout].
  - left. split; [done|]. by apply list_getitem_in_range.
  - right. split; [done|]. unfold list_getitem.
    rewrite py_index_outside by lia. done.
Qed.

(** X10.  [crosses_parts] does not depend on the order of the two
    endpoints; it returns a truth value when both lie in [-n, n), [n] the
    number of labels, and raises IndexError otherwise; an edge from a node
    to itself never crosses parts. *)
Theorem crosses_parts_symmetric p u v :
  let n := Z.of_nat (length (assignment (state p))) in
  crosses_parts p (u, v) = crosses_parts p (v, u)
  ∧ (- n ≤ u < n ∧ - n ≤ v < n → is_Ok (crosses_parts p (u, v)))
  ∧ (¬ (- n ≤ u < n ∧ - n ≤ v < n) → crosses_parts p (u, v) = Raise IndexError)
  ∧ (- n ≤ u < n → crosses_parts p (u, u) = Ok false).
Proof.
  simpl. unfold crosses_parts. simpl.
  destruct (list_getitem_outcome (assignment (state p)) u) as [[Hu [lu Hlu]]|[Hu Hlu]],
           (list_getitem_outcome (assignment (state p)) v) as [[Hv [lv Hlv]]|[Hv Hlv]];
    rewrite Hlu, Hlv; simpl.
  - split_and!.
    + f_equal. apply bool_decide_ext. naive_solver.
    + intros _. by eexists.
    + intros Hno. by destruct Hno.
    + intros _. by rewrite bool_decide_eq_false_2 by naive_solver.
  - split_and!; [done| |done|].
    + intros [_ ?]. done.
    + intros _. by rewrite bool_decide_eq_false_2 by naive_solver.
  - split_and!; [done| |done|].
    + intros [? _]. done.
    + intros ?. done.
  - split_and!; [done| |done|].
    + intros [? _]. done.
    + intros ?. done.
Qed.

(** ** The child's assignment (lines 66-76) *)

(** X11.  The child of a Flip Set has as many labels as the parent, the
    flipped label at every flipped node and the parent's label at every
    other node; it keeps the parent's graph and registry and records the
    flips and the parent. *)
Theorem merge_applies_flips par fs par' child :
  flip_set (assignment (state par)) fs →
  merge par fs = (par', Ok child) →
  length (assignment (state child)) = length (assignment (state par))
  ∧ (∀ key val, (key, val) ∈ fs → assignment (state child) !! Z.to_nat key = Some val)
  ∧ (∀ i : nat, Z.of_nat i ∉ fs.*1 →
       assignment (state child) !! i = assignment (state par) !! i)
  ∧ graph (state child) = graph (state par)
  ∧ updaters child = updaters par
  ∧ flips (state child) = Some fs
  ∧ parent (state child) = Some (state par').
Proof.
  intros [Hnd Hrange]. rewrite merge_unfold. destruct (truthy (Some par)); [|done].
  destruct (apply_flips (assignment (state par)) fs) as [a'|e'] eqn:Happly; [|done].
  destruct (_update_parts (state par) fs a') as [pp' [[[fl ef] sp]|e']]; [|done].
  intros [= <- <-]. simpl.
  assert (Hpos : Forall (λ kv : Z * value, 0 ≤ kv.1) fs).
  { eapply Forall_impl; [done|]. simpl. lia. }
  split_and!; [|intros key val Hin|intros i Hi|done..].
  - by eapply apply_flips_length.
  - by eapply apply_flips_flipped.
  - by eapply apply_flips_other.
Qed.

(** ** A root without an assignment (lines 40-47 and 61-63) *)

(** X8.  Without an assignment attribute ([None] or the empty name) every
    node of the root is labelled 0: the root has the one part 0 with all
    the nodes, or no part at all when the graph has no node. *)
Theorem root_default_assignment g name ups :
  truthy_name name = false →
  ∃ root,
    __init__ (Some g) name ups None None = (None, Ok root)
    ∧ assignment (state root) = replicate (length (nx_nodes g)) (VInt 0)
    ∧ items (parts (state root))
        = (if decide (nx_nodes g = []) then ∅
           else {[ VInt 0 := list_to_set (seqZ 0 (Z.of_nat (length (nx_nodes g)))) ]})
    ∧ __len__ root = (if decide (nx_nodes g = []) then 0 else 1)%nat.
Proof.
  intros Hname. eexists. split; [apply root_unfold|]. simpl. rewrite Hname.
  assert ((λ _ : value * gmap string value, VInt 0) <$> nx_nodes g
          = replicate (length (nx_nodes g)) (VInt 0)) as Hzeros
    by (by apply const_fmap).
  unfold __len__. simpl. rewrite Hzeros. split; [done|].
  set (n := length (nx_nodes g)).
  assert (group_parts (replicate n (VInt 0))
          = if decide (nx_nodes g = []) then ∅
            else {[ VInt 0 := list_to_set (seqZ 0 (Z.of_nat n)) ]}) as ->.
  { destruct (group_parts_indexes (replicate n (VInt 0))) as [Hidx Hne].
    apply (indexes_unique (replicate n (VInt 0))); [done..| |].
    - split.
      + intros lbl S HS z. case_decide as Hnil; [by rewrite lookup_empty in HS|].
        apply lookup_singleton_Some in HS as [<- <-].
        rewrite elem_of_list_to_set, elem_of_seqZ. unfold labelled.
        rewrite lookup_replicate. split; [intros; split_and!; [lia|done|lia]|].
        intros (? & _ & ?). lia.
      + intros lbl Hin. apply elem_of_replicate in Hin as [-> Hn].
        rewrite decide_False.
        * rewrite lookup_singleton_eq. by eexists.
        * intros Hnil. apply Hn. unfold n. by rewrite Hnil.
    - intros lbl S HS. case_decide as Hnil; [by rewrite lookup_empty in HS|].
      apply lookup_singleton_Some in HS as [_ <-].
      intros Hempty. apply (not_elem_of_empty (C:=gset Z) 0). rewrite <- Hempty.
      rewrite elem_of_list_to_set, elem_of_seqZ.
      destruct (nx_nodes g); [done|]. unfold n. simpl. lia. }
  split; [done|]. case_decide; [apply map_size_empty|apply map_size_singleton].
Qed.

(** X16.  The parts of a root as [__init__] builds it are the inverse image
    partition of its assignment, in a defaultdict: every label in use is
    listed with exactly the nodes that carry it, and nothing else is
    listed; the root has no parent, flips or flows, and one label per node
    of the graph. *)
Theorem root_parts_inverse_image g name ups root :
  __init__ (Some g) name ups None None = (None, Ok root) →
  items (parts (state root)) = inverse_image_index (assignment (state root))
  ∧ is_defaultdict (parts (state root)) = true
  ∧ length (assignment (state root)) = length (nx_nodes g)
  ∧ parent (state root) = None ∧ flips (state root) = None
  ∧ flows (state root) = None.
Proof.
  rewrite root_unfold. intros [= <-]. simpl.
  split; [apply group_parts_inverse_image|]. split; [done|].
  split; [|done]. destruct (truthy_name name).
  - by rewrite length_fmap, length_seq.
  - by rewrite length_fmap.
Qed.

(** ** The length of a Partition (lines 85-86) *)

Lemma indexes_dom a (m : gmap value (gset Z)) :
  indexes a m → no_empty_part m → dom m = list_to_set a.
Proof.
  intros [Hsets Hused] Hne. apply set_eq. intros lbl.
  rewrite elem_of_dom, elem_of_list_to_set. split.
  - intros [S HS]. destruct (set_choose_L S (Hne _ _ HS)) as [z Hz].
    apply (Hsets _ _ HS) in Hz. by eapply labelled_elem_of.
  - apply Hused.
Qed.

(** X9.  On a reachable Partition (a root, a child of a Flip Set, and what
    merges and lookups leave of them) that lists no empty part (every child
    of a Flip Set, and every root before it is used as a parent) [len] is
    the number of distinct labels of the assignment. *)
Theorem len_counts_labels p :
  reachable p → no_empty_part (items (parts (state p))) →
  __len__ p = size (list_to_set (assignment (state p)) : gset value).
Proof.
  intros Hreach Hne. destruct (reachable_well_formed _ Hreach) as (Hidx & _).
  unfold __len__. rewrite <- (indexes_dom _ _ Hidx Hne). by rewrite size_dom.
Qed.

(** ** The parent's dictionary after a [merge] (line 96) *)

Lemma update_loop_defaultdict_items fls : ∀ pp sp pp' r,
  is_defaultdict pp = true →
  update_loop fls pp sp = (pp', r) →
  ∀ lbl, items pp' !! lbl =
           match items pp !! lbl with
           | Some ms => Some ms
           | None => if decide (lbl ∈ fls.*1) then Some ∅ else None
           end.
Proof.
  induction fls as [|[part flow] rest IH]; intros pp sp pp' r Hdd; simpl.
  - intros [= <- <-] lbl. by destruct (items pp !! lbl).
  - unfold parts_getitem. rewrite Hdd.
    destruct (items pp !! part) as [S|] eqn:Hpart.
    + intros Hrest lbl. rewrite (IH _ _ _ _ Hdd Hrest lbl).
      destruct (items pp !! lbl) as [S'|] eqn:Hlbl; [done|].
      assert (lbl ≠ part) by congruence.
      apply decide_ext. rewrite elem_of_cons. naive_solver.
    + intros Hrest lbl.
      rewrite (IH {| is_defaultdict := true; items := <[part:=∅]> (items pp) |}
                 _ _ _ eq_refl Hrest lbl). simpl.
      destruct (decide (part = lbl)) as [->|Hne].
      * rewrite lookup_insert_eq, Hpart. by rewrite decide_True by left.
      * rewrite lookup_insert_ne by done.
        destruct (items pp !! lbl) as [S'|]; [done|].
        apply decide_ext. rewrite elem_of_cons. naive_solver.
Qed.

(** X12.  What a successful [merge] does to a root: its parts dictionary
    keeps every entry it has and gains an empty set under every label of
    the child's flows that it does not list, and nothing else. *)
Theorem root_parts_after_merge par fs par' child :
  is_defaultdict (parts (state par)) = true →
  merge par fs = (par', Ok child) →
  ∃ fl, flows (state child) = Some fl
    ∧ ∀ lbl,
        items (parts (state par')) !! lbl =
          match items (parts (state par)) !! lbl with
          | Some ms => Some ms
          | None => if decide (is_Some (fl !! lbl)) then Some ∅ else None
          end.
Proof.
  intros Hdd. rewrite merge_unfold. destruct (truthy (Some par)); [|done].
  destruct (apply_flips (assignment (state par)) fs) as [a'|e']; [|done].
  unfold _update_parts.
  destruct (rundmcmc_updaters.flows_from_changes (assignment (state par)) fs)
    as [fl|e']; [|done].
  destruct (update_loop (map_to_list fl) (parts (state par)) (items (parts (state par))))
    as [pp1 [sp1|e1]] eqn:Hloop; simpl; [|done].
  intros [= <- <-]. simpl. exists fl. split; [done|]. intros lbl.
  rewrite (update_loop_defaultdict_items _ _ _ _ _ Hdd Hloop lbl).
  destruct (items (parts (state par)) !! lbl); [done|].
  apply decide_ext. apply elem_of_map_to_list_fst.
Qed.

(** ** A new label on a child (lines 96 and 99) *)

Lemma update_loop_plain_missing fls : ∀ pp sp lbl,
  is_defaultdict pp = false → lbl ∈ fls.*1 → items pp !! lbl = None →
  update_loop fls pp sp = (pp, Raise KeyError).
Proof.
  induction fls as [|[part flow] rest IH]; intros pp sp lbl Hplain Hin Hnone; simpl.
  - by apply elem_of_nil in Hin.
  - unfold parts_getitem. rewrite Hplain.
    destruct (items pp !! part) as [S|] eqn:Hpart; [|done].
    apply elem_of_cons in Hin as [->|Hin]; [simpl in *; congruence|].
    by eapply IH.
Qed.

(** X13.  On a well-formed child with at least one part, [merge] of a Flip
    Set raises KeyError, leaving the child as it was, exactly when some
    flip assigns a label that the child's parts do not list. *)
Theorem merge_new_label_KeyError par fs :
  well_formed par → is_defaultdict (parts (state par)) = false →
  truthy (Some par) = true → flip_set (assignment (state par)) fs →
  merge par fs = (par, Raise KeyError)
  ↔ ∃ key lbl, (key, lbl) ∈ fs ∧ items (parts (state par)) !! lbl = None.
Proof.
  intros (Hidx & _) Hplain Htruthy Hfs. rewrite merge_unfold, Htruthy.
  assert (Hrange : Forall (λ kv : Z * value,
                     - Z.of_nat (length (assignment (state par))) ≤ kv.1
                     < Z.of_nat (length (assignment (state par)))) fs).
  { destruct Hfs as [_ Hr]. eapply Forall_impl; [done|]. simpl. lia. }
  destruct (apply_flips_in_range _ _ Hrange) as [a' Happly]. rewrite Happly.
  pose proof (update_parts_outcome (state par) fs a' Hidx Hfs Happly) as Hout.
  destruct (_update_parts (state par) fs a') as [pp' [[[fl ef] sp]|e]] eqn:Hup;
    simpl in Hout.
  - split; [done|]. intros (key & lbl & Hin & Hnone). exfalso.
    unfold _update_parts in Hup.
    destruct (flows_from_changes_in_range _ _ Hrange) as [flows Hflows].
    rewrite Hflows in Hup.
    assert (lbl ∈ (map_to_list flows).*1) as Hkey.
    { apply elem_of_map_to_list_fst, elem_of_dom.
      apply (flows_loop_spec _ _ _ _ Hflows lbl). right. exists key. left.
      destruct (list_getitem_in_range (assignment (state par)) key) as [old Hold].
      { by apply (proj1 (Forall_forall _ _) Hrange (key, lbl)). }
      exists old. split_and!; [done..|]. intros ->.
      apply list_getitem_elem_of, Hidx in Hold as [S HS]. congruence. }
    rewrite (update_loop_plain_missing _ _ _ lbl Hplain Hkey Hnone) in Hup.
    simpl in Hup. congruence.
  - destruct Hout as (-> & _ & Hex). split; [done|]. intros _.
    by rewrite (update_parts_Raise _ _ _ _ _ Hup), set_parts_same.
Qed.

(** ** The shape of every Partition object *)

Lemma position_lt v ns k : networkx.position v ns = Some k → (k < length ns)%nat.
Proof.
  revert k. induction ns as [|nd rest IH]; intros k; simpl; [done|].
  case_decide; [intros [= <-]; lia|].
  destruct (networkx.position v rest) as [k'|]; simpl; [|done].
  intros [= <-]. specialize (IH k' eq_refl). lia.
Qed.

Lemma shaped_root g name ups root :
  __init__ (Some g) name ups None None = (None, Ok root) → shaped root.
Proof.
  rewrite root_unfold. intros [= <-]. unfold shaped. simpl.
  rewrite length_fmap. split_and!.
  - destruct (truthy_name name); by rewrite length_fmap, ?length_seq.
  - apply Forall_forall. intros [u v] Hin.
    apply list_elem_of_omap in Hin as ([x y] & _ & Hxy). simpl in Hxy.
    destruct (networkx.position x (nx_nodes g)) as [i|] eqn:Hi; simpl in Hxy; [|done].
    destruct (networkx.position y (nx_nodes g)) as [j|] eqn:Hj; simpl in Hxy; [|done].
    injection Hxy as <- <-. apply position_lt in Hi, Hj. simpl. lia.
  - by intros ->.
Qed.

Lemma shaped_truthy p :
  shaped p → truthy (Some p) = true → assignment (state p) ≠ [].
Proof.
  intros (_ & _ & Hnil) Htruthy Ha. unfold truthy, __len__ in Htruthy.
  by rewrite (Hnil Ha), map_size_empty in Htruthy.
Qed.

Lemma shaped_child par fs par' child :
  shaped par → merge par fs = (par', Ok child) → shaped child.
Proof.
  intros Hpar. rewrite merge_unfold.
  destruct (truthy (Some par)) eqn:Htruthy; [|done].
  destruct (apply_flips (assignment (state par)) fs) as [a'|e'] eqn:Happly; [|done].
  destruct (_update_parts (state par) fs a') as [pp' [[[fl ef] sp]|e']]; [|done].
  intros [= <- <-]. unfold shaped. simpl.
  pose proof (shaped_truthy _ Hpar Htruthy) as Hne.
  destruct Hpar as (Hlen & Hedges & _).
  pose proof (apply_flips_length _ _ _ Happly) as Hlen'.
  split_and!; [congruence|done|].
  intros ->. destruct (assignment (state par)); done.
Qed.

Lemma shaped_parent par fs par' r :
  shaped par → merge par fs = (par', r) → shaped par'.
Proof.
  intros Hpar Hmerge.
  destruct (truthy (Some par)) eqn:Htruthy.
  - pose proof (shaped_truthy _ Hpar Htruthy) as Hne.
    destruct (merge_parent_frame _ _ _ _ Hmerge) as (pp' & -> & _).
    destruct Hpar as (Hlen & Hedges & _). unfold shaped. simpl.
    split_and!; done.
  - rewrite merge_unfold, Htruthy in Hmerge. by injection Hmerge as <- _.
Qed.

Lemma reachable_shaped p : reachable p → shaped p.
Proof.
  induction 1 as [g name ups root Hroot
                 |par fs par' child _ IH Hfs Hmerge
                 |par fs par' r _ IH Hmerge
                 |p key p' r _ IH Hget].
  - by eapply shaped_root.
  - by eapply shaped_child.
  - by eapply shaped_parent.
  - destruct (getitem_state _ _ _ _ Hget) as [Hstate _].
    unfold shaped. rewrite Hstate. exact IH.
Qed.

(** X14.  Every reachable Partition has one label per node of its graph,
    and [crosses_parts] returns a truth value, without raising, on every
    edge of its graph. *)
Theorem reachable_crosses_parts_total p :
  reachable p →
  length (assignment (state p)) = length (nodes (graph (state p)))
  ∧ Forall (λ e, is_Ok (crosses_parts p e)) (edges (graph (state p))).
Proof.
  intros Hreach. destruct (reachable_shaped _ Hreach) as (Hlen & Hedges & _).
  split; [done|]. eapply Forall_impl; [exact Hedges|].
  intros [u v] [Hu Hv]. simpl in *. unfold crosses_parts. simpl.
  destruct (list_getitem_in_range (assignment (state p)) u) as [lu ->]; [lia|].
  destruct (list_getitem_in_range (assignment (state p)) v) as [lv ->]; [lia|].
  by eexists.
Qed.

(** X15.  A reachable Partition counts as a parent in [if parent:] exactly
    when its assignment is not empty; on a reachable Partition with an
    empty assignment [merge] raises AttributeError for every flips and
    changes nothing. *)
Theorem reachable_truthy_iff_nodes p :
  reachable p →
  (truthy (Some p) = true ↔ assignment (state p) ≠ [])
  ∧ (assignment (state p) = [] → ∀ fs, merge p fs = (p, Raise AttributeError)).
Proof.
  intros Hreach. pose proof (reachable_shaped _ Hreach) as Hshaped.
  destruct (reachable_well_formed _ Hreach) as ([_ Hused] & _).
  split; [split|].
  - by apply shaped_truthy.
  - intros Hne. destruct (assignment (state p)) as [|lbl rest] eqn:Ha; [done|].
    destruct (Hused lbl) as [S HS]; [left|].
    unfold truthy, __len__.
    destruct (decide (size (items (parts (state p))) = 0%nat)) as [Hzero|Hpos].
    + apply map_size_empty_iff in Hzero. rewrite Hzero in HS.
      by rewrite lookup_empty in HS.
    + by destruct (size (items (parts (state p)))).
  - intros Ha fs. apply merge_without_parts. unfold __len__.
    destruct Hshaped as (_ & _ & Hnil). by rewrite (Hnil Ha), map_size_empty.
Qed.

(** ** Two transitions in a row *)

Lemma merge_applies_lengths par fs par' child :
  merge par fs = (par', Ok child) →
  length (assignment (state child)) = length (assignment (state par))
  ∧ apply_flips (assignment (state par)) fs = Ok (assignment (state child)).
Proof.
  rewrite merge_unfold. destruct (truthy (Some par)); [|done].
  destruct (apply_flips (assignment (state par)) fs) as [a'|e'] eqn:Happly; [|done].
  destruct (_update_parts (state par) fs a') as [pp' [[[fl ef] sp]|e']]; [|done].
  intros [= <- <-]. simpl. split; [by eapply apply_flips_length|done].
Qed.

Lemma child_is_plain par fs par' child :
  merge par fs = (par', Ok child) →
  is_defaultdict (parts (state child)) = false
  ∧ no_empty_part (items (parts (state child))).
Proof.
  rewrite merge_unfold. destruct (truthy (Some par)); [|done].
  destruct (apply_flips (assignment (state par)) fs) as [a'|e']; [|done].
  unfold _update_parts.
  destruct (rundmcmc_updaters.flows_from_changes (assignment (state par)) fs)
    as [fl|e']; [|done].
  destruct (update_loop (map_to_list fl) (parts (state par)) (items (parts (state par))))
    as [pp1 [sp1|e1]]; simpl; [|done].
  intros [= <- <-]. simpl. split; [done|apply drop_empty_no_empty].
Qed.


Lemma apply_flips_app fs1 fs2 : ∀ a,
  apply_flips a (fs1 ++ fs2) = a1 ← apply_flips a fs1; apply_flips a1 fs2.
Proof.
  induction fs1 as [|[key val] rest IH]; intros a; simpl; [done|].
  destruct (list_setitem a key val) as [a1|]; simpl; [apply IH|done].
Qed.

(** X17.  Two transitions in a row with a Flip Set each, over different
    nodes, give the assignment and the parts of the one transition with
    both Flip Sets together. *)
Theorem merge_composes par fs1 fs2 par1 child1 child1' child2 par2 both :
  well_formed par →
  flip_set (assignment (state par)) (fs1 ++ fs2) →
  merge par fs1 = (par1, Ok child1) →
  merge child1 fs2 = (child1', Ok child2) →
  merge par (fs1 ++ fs2) = (par2, Ok both) →
  assignment (state child2) = assignment (state both)
  ∧ items (parts (state child2)) = items (parts (state both)).
Proof.
  intros Hwf Hfs12 H1 H2 H12. pose proof Hfs12 as [Hnd Hrange].
  rewrite fmap_app in Hnd. apply NoDup_app in Hnd as (Hnd1 & _ & Hnd2).
  apply Forall_app in Hrange as [Hr1 Hr2].
  assert (Hfs1 : flip_set (assignment (state par)) fs1) by done.
  pose proof (well_formed_child _ _ _ _ Hwf Hfs1 H1) as Hwf1.
  assert (Hlen1 : length (assignment (state child1)) = length (assignment (state par))).
  { by destruct (merge_applies_lengths _ _ _ _ H1). }
  assert (Hfs2 : flip_set (assignment (state child1)) fs2).
  { split; [done|]. by rewrite Hlen1. }
  pose proof (well_formed_child _ _ _ _ Hwf1 Hfs2 H2) as (Hidx2 & Hne2 & _).
  pose proof (well_formed_child _ _ _ _ Hwf Hfs12 H12) as (Hidx12 & Hne12 & _).
  assert (Ha : assignment (state child2) = assignment (state both)).
  { destruct (merge_applies_lengths _ _ _ _ H1) as [_ Ha1].
    destruct (merge_applies_lengths _ _ _ _ H2) as [_ Ha2].
    destruct (merge_applies_lengths _ _ _ _ H12) as [_ Ha12].
    rewrite apply_flips_app, Ha1 in Ha12. simpl in Ha12.
    rewrite Ha2 in Ha12. by injection Ha12. }
  split; [done|].
  apply (indexes_unique (assignment (state both))).
  - by rewrite <- Ha.
  - apply Hne2. by destruct (child_is_plain _ _ _ _ H2).
  - done.
  - apply Hne12. by destruct (child_is_plain _ _ _ _ H12).
Qed.

(** ** The parts of every reachable Partition *)

(** X1.  On every reachable Partition (a root, a child of a Flip Set, and
    what merges and lookups leave of them) the set listed under a label
    (none, if the label is not listed) is exactly the set of the nodes that
    carry the label, and every label in use is listed; when the parts are a
    plain dict, as on every child of a Flip Set, they are the inverse image
    partition of the assignment. *)
Theorem reachable_parts_index p :
  reachable p →
  (∀ lbl, default ∅ (items (parts (state p)) !! lbl)
          = members (assignment (state p)) lbl)
  ∧ (∀ lbl, lbl ∈ assignment (state p) → is_Some (items (parts (state p)) !! lbl))
  ∧ (is_defaultdict (parts (state p)) = false →
     items (parts (state p)) = inverse_image_index (assignment (state p))).
Proof.
  intros Hreach. destruct (reachable_well_formed _ Hreach) as (Hidx & Hne & _).
  split_and!.
  - intros lbl. apply set_eq. intros z.
    by rewrite (indexes_default _ _ lbl z Hidx), elem_of_members.
  - apply Hidx.
  - intros Hplain. destruct (inverse_image_indexes (assignment (state p))).
    apply (indexes_unique (assignment (state p))); auto.
Qed.

(** X2.  [merge] of a Flip Set on a well-formed Partition with at least one
    part either returns a child whose assignment is the parent's with the
    flips applied and whose parts are the inverse image partition of that
    assignment, or raises KeyError, the parent being a child whose parts do
    not list a label that some flip assigns. *)
Theorem merge_flip_set_outcome par fs :
  well_formed par → truthy (Some par) = true →
  flip_set (assignment (state par)) fs →
  match (merge par fs).2 with
  | Ok child =>
      apply_flips (assignment (state par)) fs = Ok (assignment (state child))
      ∧ items (parts (state child)) = inverse_image_index (assignment (state child))
  | Raise e =>
      e = KeyError ∧ is_defaultdict (parts (state par)) = false
      ∧ ∃ key lbl, (key, lbl) ∈ fs ∧ items (parts (state par)) !! lbl = None
  end.
Proof.
  intros (Hidx & _) Htruthy Hfs. rewrite merge_unfold, Htruthy.
  destruct (apply_flips_in_range fs (assignment (state par))) as [a' Happly].
  { destruct Hfs as [_ Hr]. eapply Forall_impl; [done|]. simpl. lia. }
  rewrite Happly.
  pose proof (update_parts_outcome (state par) fs a' Hidx Hfs Happly) as Hout.
  destruct (_update_parts (state par) fs a') as [pp' [[[fl ef] sp]|e]]; simpl in *.
  - by destruct Hout.
  - done.
Qed.

(** X4.  On a reachable Partition with at least one part and no empty
    part, a [merge] whose flips map nodes to their current labels leaves
    the parent as it was and returns a child with the parent's assignment,
    parts and [max_edge_cuts]. *)
Theorem reachable_noop_flips par fs :
  reachable par → truthy (Some par) = true →
  no_empty_part (items (parts (state par))) →
  Forall (λ kv : Z * value, list_getitem (assignment (state par)) kv.1 = Ok kv.2) fs →
  ∃ child,
    merge par fs = (par, Ok child)
    ∧ assignment (state child) = assignment (state par)
    ∧ items (parts (state child)) = items (parts (state par))
    ∧ max_edge_cuts (state child) = max_edge_cuts (state par).
Proof.
  intros Hreach. apply noop_flips_stable. by apply reachable_well_formed.
Qed.

(** ** What every Partition object carries *)

(** X18.  Every reachable Partition carries the [max_edge_cuts] of its own
    graph and assignment (line 34 replaces what line 76 copied from the
    parent), and its cache holds values under registered keys only. *)
Theorem reachable_max_edge_cuts p :
  reachable p →
  max_edge_cuts (state p) =
    rundmcmc_proposals.max_edge_cuts edge_cut_statistic
      (graph (state p)) (assignment (state p))
  ∧ ∀ key, is_Some (_cache p !! key) → is_Some (updaters p !! key).
Proof.
  intros Hreach. by destruct (reachable_well_formed _ Hreach) as (_ & _ & Hmec & Hkeys).
Qed.

(** X19.  The cache of a root holds, for every key of the registry, the
    updater's value on the root as [__init__] returns it (line 59 has set
    [max_edge_cuts] before the updaters run): a lookup on the root returns
    what the updater gives on the root now, or raises KeyError. *)
Theorem root_cache_current g name ups root :
  __init__ (Some g) name ups None None = (None, Ok root) →
  _cache root = (λ f, f (state root)) <$> updaters root
  ∧ ∀ key,
      __getitem__ root key
        = (root, match updaters root !! key with
                 | Some f => Ok (f (state root))
                 | None => Raise KeyError
                 end).
Proof.
  rewrite root_unfold. intros [= <-]. simpl. split; [apply update_eq|].
  intros key. unfold __getitem__. simpl. rewrite update_eq, lookup_fmap.
  by destruct (_ !! key).
Qed.

(** ** [__repr__] (lines 80-83) *)

Lemma pretty_N_char_no_space x : pretty_N_char x ≠ Ascii.Space.
Proof. unfold pretty_N_char. repeat case_match; done. Qed.

Lemma pretty_N_go_no_space x : ∀ s,
  has_space s = false → has_space (pretty_N_go x s) = false.
Proof.
  induction (N.lt_wf_0 x) as [x _ IH]. intros s Hs.
  destruct (decide (0 < x)%N) as [Hpos|Hzero].
  - rewrite pretty_N_go_step by done. apply IH.
    + apply N.div_lt; lia.
    + simpl. rewrite bool_decide_eq_false_2; [done|apply pretty_N_char_no_space].
  - assert (x = 0%N) as -> by lia. by rewrite pretty_N_go_0.
Qed.

Lemma pretty_nat_no_space (n : nat) : has_space (pretty n) = false.
Proof.
  unfold pretty, pretty_nat, pretty, pretty_N.
  case_decide; [done|]. by apply pretty_N_go_no_space.
Qed.

Lemma before_space s1 : ∀ s2 r1 r2,
  has_space s1 = false → has_space s2 = false →
  s1 +:+ String Ascii.Space r1 = s2 +:+ String Ascii.Space r2 → s1 = s2.
Proof.
  induction s1 as [|c1 s1 IH]; intros [|c2 s2] r1 r2; simpl; intros H1 H2 Heq.
  - done.
  - injection Heq as <- _. by rewrite bool_decide_eq_true_2 in H2.
  - injection Heq as -> _. by rewrite bool_decide_eq_true_2 in H1.
  - injection Heq as -> Heq. apply orb_false_iff in H1 as [_ H1], H2 as [_ H2].
    f_equal. by eapply IH.
Qed.

Lemma repr_inj p q : __repr__ p = __repr__ q → __len__ p = __len__ q.
Proof.
  unfold __repr__. intros Heq. simpl in Heq. apply (inj pretty).
  eapply before_space; [apply pretty_nat_no_space..|].
  injection Heq. intros H. exact H.
Qed.

(** X20.  The text of [__repr__] tells the number of parts: two Partitions
    print the same exactly when they have as many parts. *)
Theorem repr_determines_len p q : __repr__ p = __repr__ q ↔ __len__ p = __len__ q.
Proof.
  split; [apply repr_inj|]. unfold __repr__. by intros ->.
Qed.

Lemma reachable_len_zero p :
  reachable p → __len__ p = 0%nat ↔ nodes (graph (state p)) = [].
Proof.
  intros Hreach. destruct (reachable_shaped _ Hreach) as (Hlen & _ & Hnil).
  destruct (reachable_well_formed _ Hreach) as ([_ Hused] & _).
  unfold __len__. split.
  - intros Hzero. apply map_size_empty_iff in Hzero.
    destruct (assignment (state p)) as [|lbl rest] eqn:Ha.
    + by apply nil_length_inv.
    + destruct (Hused lbl) as [S HS]; [left|].
      rewrite Hzero in HS. by rewrite lookup_empty in HS.
  - intros Hnodes. rewrite Hnodes in Hlen. apply nil_length_inv in Hlen.
    by rewrite (Hnil Hlen), map_size_empty.
Qed.

(** X21.  A reachable Partition prints as "Partition of a graph into 0
    part" exactly when its graph has no node. *)
Theorem reachable_repr_zero p :
  reachable p →
  __repr__ p = "Partition of a graph into 0 part"%string
  ↔ nodes (graph (state p)) = [].
Proof.
  intros Hreach. rewrite <- (reachable_len_zero p Hreach). split.
  - intros Hrepr. by apply (repr_inj p no_partition).
  - unfold __repr__. by intros ->.
Qed.

(** ** The end-to-end scenario, as objects *)

Lemma root_returned g name ups :
  __init__ (Some g) name ups None None
    = (None, Ok (returned (__init__ (Some g) name ups None None).2)).
Proof. by rewrite root_unfold. Qed.

Lemma merge_returned par fs :
  succeeded (merge par fs).2 = true →
  merge par fs = ((merge par fs).1, Ok (returned (merge par fs).2)).
Proof. by destruct (merge par fs) as [par' [child|e]]. Qed.

Lemma scenario_root_built :
  __init__ (Some path4) (Some "district"%string) None None None
    = (None, Ok scenario_root).
Proof. apply root_returned. Qed.

Lemma scenario_child_built :
  merge scenario_root scenario_flips = (scenario_root_after, Ok scenario_child).
Proof. apply merge_returned. vm_compute. reflexivity. Qed.

Lemma scenario_first_built :
  merge scenario_root [(2, VStr "B")]
    = ((merge scenario_root [(2, VStr "B")]).1, Ok scenario_first).
Proof. apply merge_returned. vm_compute. reflexivity. Qed.

Lemma scenario_second_built :
  merge scenario_first [(3, VStr "B")]
    = ((merge scenario_first [(3, VStr "B")]).1, Ok scenario_second).
Proof. apply merge_returned. vm_compute. reflexivity. Qed.

Lemma scenario_both_built :
  merge scenario_root ([(2, VStr "B")] ++ [(3, VStr "B")])
    = (scenario_root_after, Ok scenario_child).
Proof. apply scenario_child_built. Qed.

Lemma scenario_registry_root_built :
  (__init__ (Some path4) (Some "district"%string) (Some population_registry)
     None None).2 = Ok scenario_registry_root.
Proof. by rewrite root_returned. Qed.

Lemma scenario_empty_root_built :
  __init__ (Some empty_graph) None None None None = (None, Ok scenario_empty_root).
Proof. apply root_returned. Qed.

Lemma scenario_empty_root_reachable : reachable scenario_empty_root.
Proof. eapply reachable_root. apply scenario_empty_root_built. Qed.

Lemma scenario_registry_root_init :
  __init__ (Some path4) (Some "district"%string) (Some population_registry) None None
    = (None, Ok scenario_registry_root).
Proof. apply root_returned. Qed.

Lemma scenario_root_assignment :
  assignment (state scenario_root) = [VStr "A"; VStr "A"; VStr "A"; VStr "A"].
Proof. vm_compute. reflexivity. Qed.

Lemma scenario_child_assignment :
  assignment (state scenario_child) = [VStr "A"; VStr "A"; VStr "B"; VStr "B"].
Proof. vm_compute. reflexivity. Qed.

Lemma scenario_flip_set : flip_set (assignment (state scenario_root)) scenario_flips.
Proof.
  rewrite scenario_root_assignment. split; simpl.
  - repeat constructor; set_solver.
  - repeat constructor; simpl; lia.
Qed.

Lemma scenario_root_truthy : truthy (Some scenario_root) = true.
Proof. vm_compute. reflexivity. Qed.

Lemma scenario_root_defaultdict : is_defaultdict (parts (state scenario_root)) = true.
Proof. vm_compute. reflexivity. Qed.

Lemma scenario_child_truthy : truthy (Some scenario_child) = true.
Proof. vm_compute. reflexivity. Qed.

Lemma scenario_child_plain :
  is_defaultdict (parts (state scenario_child)) = false
  ∧ no_empty_part (items (parts (state scenario_child))).
Proof. eapply child_is_plain. apply scenario_child_built. Qed.

Lemma scenario_new_flip_set :
  flip_set (assignment (state scenario_child)) [(0, VStr "C")].
Proof.
  rewrite scenario_child_assignment.
  split; simpl; [apply NoDup_singleton|repeat constructor; simpl; lia].
Qed.

Lemma scenario_child_lacks_C : items (parts (state scenario_child)) !! VStr "C" = None.
Proof. vm_compute. reflexivity. Qed.

Lemma scenario_child_node0 :
  Forall (λ kv : Z * value, list_getitem (assignment (state scenario_child)) kv.1 = Ok kv.2)
    [(0, VStr "A")].
Proof. rewrite scenario_child_assignment. repeat constructor. Qed.

Lemma scenario_root_reachable : reachable scenario_root.
Proof. eapply reachable_root. apply scenario_root_built. Qed.

Lemma scenario_child_reachable : reachable scenario_child.
Proof.
  eapply reachable_child;
    [apply scenario_root_reachable|apply scenario_flip_set|apply scenario_child_built].
Qed.

Lemma scenario_root_after_reachable : reachable scenario_root_after.
Proof.
  eapply reachable_parent; [apply scenario_root_reachable|apply scenario_child_built].
Qed.

End partition.

(** * The claims at concrete inputs

    The class run with the statistic [count_cut]. *)

(** C6 on the root of the end-to-end scenario, built without a registry:
    the lookup of "population" raises KeyError. *)
Lemma getitem_unknown_key_witness :
  ∃ root,
    __init__ count_cut (Some path4) (Some "district"%string) None None None
      = (None, Ok root)
    ∧ updaters root = ∅
    ∧ __getitem__ root "population" = (root, Raise KeyError).
Proof.
  eexists. split; [apply root_unfold|]. split; [reflexivity|].
  apply (getitem_unknown_key count_cut). right. split; [reflexivity|].
  exists (Some path4), (Some "district"%string), None, None, None. reflexivity.
Defined.

(** C3 fails as stated: with the registry {"population": ...} given to the
    root, the child of the end-to-end transition holds the value of
    "population" in its cache as soon as it is built, before any lookup. *)
Lemma child_cache_not_empty :
  ∃ root root' child,
    __init__ count_cut (Some path4) (Some "district"%string)
      (Some population_registry) None None = (None, Ok root)
    ∧ merge count_cut root [(2, VStr "B"); (3, VStr "B")] = (root', Ok child)
    ∧ _cache child !! "population"%string = Some (VInt 4)
    ∧ _cache child ≠ ∅.
Proof.
  eexists _, _, _. split; [apply root_unfold|].
  split; [reflexivity|]. split; [reflexivity|].
  intros Hempty. apply (f_equal (λ m : gmap string value, m !! "population"%string)) in Hempty.
  by vm_compute in Hempty.
Qed.

(** C3, as the code has it, on the same transition: the child's cache is
    {"population": 4} when it is built, and the lookup returns the stored
    value. *)
Lemma child_cache_filled_at_construction_witness :
  ∃ root root' child,
    __init__ count_cut (Some path4) (Some "district"%string)
      (Some population_registry) None None = (None, Ok root)
    ∧ merge count_cut root [(2, VStr "B"); (3, VStr "B")] = (root', Ok child)
    ∧ updaters child = population_registry
    ∧ _cache child = {[ "population"%string := VInt 4 ]}
    ∧ __getitem__ child "population" = (child, Ok (VInt 4)).
Proof.
  eexists _, _, _. split; [apply root_unfold|].
  match goal with
  | |- merge _ ?r ?fs = _ ∧ _ =>
      pose proof (child_cache_filled_at_construction count_cut r fs) as Hchild
  end.
  split; [reflexivity|].
  match goal with
  | |- updaters ?c = _ ∧ _ => destruct (Hchild _ c eq_refl) as (Hups & Hcache & Hget)
  end.
  split; [exact Hups|]. split.
  - rewrite Hcache. reflexivity.
  - exact (Hget "population"%string
             (λ self, VInt (Z.of_nat (length (assignment self)))) eq_refl).
Defined.



(** * The further properties at concrete inputs *)

(** X1 on the child of the end-to-end scenario. *)
Lemma reachable_parts_index_witness :
  reachable count_cut (scenario_child count_cut)
  ∧ items (parts (state (scenario_child count_cut)))
    = inverse_image_index (assignment (state (scenario_child count_cut))).
Proof.
  split; [apply scenario_child_reachable|].
  destruct (reachable_parts_index count_cut _ (scenario_child_reachable count_cut))
    as (_ & _ & Hplain).
  apply Hplain. apply scenario_child_plain.
Defined.

(** X2 on the transition of the end-to-end scenario. *)
Lemma merge_flip_set_outcome_witness :
  well_formed count_cut (scenario_root count_cut)
  ∧ truthy (Some (scenario_root count_cut)) = true
  ∧ flip_set (assignment (state (scenario_root count_cut))) scenario_flips
  ∧ items (parts (state (scenario_child count_cut)))
    = inverse_image_index (assignment (state (scenario_child count_cut))).
Proof.
  pose proof (reachable_well_formed count_cut _ (scenario_root_reachable count_cut))
    as Hwf.
  split; [exact Hwf|]. split; [apply scenario_root_truthy|].
  split; [apply scenario_flip_set|].
  pose proof (merge_flip_set_outcome count_cut (scenario_root count_cut)
                scenario_flips Hwf (scenario_root_truthy count_cut)
                (scenario_flip_set count_cut)) as Hout.
  rewrite scenario_child_built in Hout. exact (proj2 Hout).
Defined.

(** X4 on the child of the end-to-end scenario and the flip {0: "A"}. *)
Lemma reachable_noop_flips_witness :
  reachable count_cut (scenario_child count_cut)
  ∧ truthy (Some (scenario_child count_cut)) = true
  ∧ no_empty_part (items (parts (state (scenario_child count_cut))))
  ∧ Forall (λ kv : Z * value,
              list_getitem (assignment (state (scenario_child count_cut))) kv.1
              = Ok kv.2) [(0, VStr "A")]
  ∧ ∃ child,
      merge count_cut (scenario_child count_cut) [(0, VStr "A")]
        = (scenario_child count_cut, Ok child)
      ∧ assignment (state child) = assignment (state (scenario_child count_cut)).
Proof.
  split; [apply scenario_child_reachable|]. split; [apply scenario_child_truthy|].
  split; [apply scenario_child_plain|]. split; [apply scenario_child_node0|].
  destruct (reachable_noop_flips count_cut (scenario_child count_cut) [(0, VStr "A")]
              (scenario_child_reachable count_cut) (scenario_child_truthy count_cut)
              (proj2 (scenario_child_plain count_cut)) (scenario_child_node0 count_cut))
    as (child & Hmerge & Hassign & _).
  exists child. split; [exact Hmerge|exact Hassign].
Defined.

(** X5 on the transition of the end-to-end scenario. *)
Lemma child_parts_from_flows_witness :
  merge count_cut (scenario_root count_cut) scenario_flips
    = (scenario_root_after count_cut, Ok (scenario_child count_cut))
  ∧ is_defaultdict (parts (state (scenario_child count_cut))) = false.
Proof.
  split; [apply scenario_child_built|].
  exact (proj1 (child_parts_from_flows count_cut _ _ _ _
                  (scenario_child_built count_cut))).
Defined.

(** X7 on the root of the scenario built with the registry
    {"population": ...}: the lookup of "population" changes nothing, the
    lookup of "area" raises KeyError. *)
Lemma getitem_after_init_witness :
  (__init__ count_cut (Some path4) (Some "district"%string)
     (Some population_registry) None None).2
    = Ok (scenario_registry_root count_cut)
  ∧ ∀ key, (__getitem__ (scenario_registry_root count_cut) key).1
           = scenario_registry_root count_cut.
Proof.
  split; [apply scenario_registry_root_built|]. intros key.
  exact (proj1 (getitem_after_init count_cut _ _ _ _ _ _
                  (scenario_registry_root_built count_cut) key)).
Defined.

(** X8 on [path4] with the empty attribute name. *)
Lemma root_default_assignment_witness :
  truthy_name (Some ""%string) = false
  ∧ ∃ root,
      __init__ count_cut (Some path4) (Some ""%string) None None None = (None, Ok root)
      ∧ assignment (state root) = [VInt 0; VInt 0; VInt 0; VInt 0]
      ∧ __len__ root = 1%nat.
Proof.
  split; [reflexivity|].
  destruct (root_default_assignment count_cut path4 (Some ""%string) None eq_refl)
    as (root & Hinit & Hassign & _ & Hlen).
  exists root. split; [exact Hinit|]. split; [exact Hassign|exact Hlen].
Defined.

(** X9 on the child of the end-to-end scenario. *)
Lemma len_counts_labels_witness :
  reachable count_cut (scenario_child count_cut)
  ∧ no_empty_part (items (parts (state (scenario_child count_cut))))
  ∧ __len__ (scenario_child count_cut)
    = size (list_to_set (assignment (state (scenario_child count_cut))) : gset value).
Proof.
  split; [apply scenario_child_reachable|]. split; [apply scenario_child_plain|].
  exact (len_counts_labels count_cut _ (scenario_child_reachable count_cut)
           (proj2 (scenario_child_plain count_cut))).
Defined.

(** X11 on the transition of the end-to-end scenario. *)
Lemma merge_applies_flips_witness :
  flip_set (assignment (state (scenario_root count_cut))) scenario_flips
  ∧ merge count_cut (scenario_root count_cut) scenario_flips
    = (scenario_root_after count_cut, Ok (scenario_child count_cut))
  ∧ length (assignment (state (scenario_child count_cut)))
    = length (assignment (state (scenario_root count_cut)))
  ∧ flips (state (scenario_child count_cut)) = Some scenario_flips.
Proof.
  split; [apply scenario_flip_set|]. split; [apply scenario_child_built|].
  destruct (merge_applies_flips count_cut _ _ _ _ (scenario_flip_set count_cut)
              (scenario_child_built count_cut))
    as (Hlen & _ & _ & _ & _ & Hflips & _).
  split; [exact Hlen|exact Hflips].
Defined.

(** X12 on the transition of the end-to-end scenario. *)
Lemma root_parts_after_merge_witness :
  is_defaultdict (parts (state (scenario_root count_cut))) = true
  ∧ merge count_cut (scenario_root count_cut) scenario_flips
    = (scenario_root_after count_cut, Ok (scenario_child count_cut))
  ∧ ∃ fl, flows (state (scenario_child count_cut)) = Some fl
    ∧ items (parts (state (scenario_root_after count_cut))) !! VStr "B"
      = match items (parts (state (scenario_root count_cut))) !! VStr "B" with
        | Some ms => Some ms
        | None => if decide (is_Some (fl !! VStr "B")) then Some ∅ else None
        end.
Proof.
  split; [apply scenario_root_defaultdict|]. split; [apply scenario_child_built|].
  destruct (root_parts_after_merge count_cut (scenario_root count_cut) scenario_flips
              _ _ (scenario_root_defaultdict count_cut)
              (scenario_child_built count_cut)) as (fl & Hfl & Hparts).
  exists fl. split; [exact Hfl|]. exact (Hparts (VStr "B")).
Defined.

(** X13 on the child of the end-to-end scenario and the flip {0: "C"}. *)
Lemma merge_new_label_KeyError_witness :
  well_formed count_cut (scenario_child count_cut)
  ∧ is_defaultdict (parts (state (scenario_child count_cut))) = false
  ∧ truthy (Some (scenario_child count_cut)) = true
  ∧ flip_set (assignment (state (scenario_child count_cut))) [(0, VStr "C")]
  ∧ merge count_cut (scenario_child count_cut) [(0, VStr "C")]
    = (scenario_child count_cut, Raise KeyError).
Proof.
  pose proof (reachable_well_formed count_cut _ (scenario_child_reachable count_cut))
    as Hwf.
  split; [exact Hwf|]. split; [apply scenario_child_plain|].
  split; [apply scenario_child_truthy|]. split; [apply scenario_new_flip_set|].
  apply (merge_new_label_KeyError count_cut _ _ Hwf
           (proj1 (scenario_child_plain count_cut)) (scenario_child_truthy count_cut)
           (scenario_new_flip_set count_cut)).
  exists 0, (VStr "C"). split; [apply list_elem_of_here|apply scenario_child_lacks_C].
Defined.

(** X14 on the child of the end-to-end scenario. *)
Lemma reachable_crosses_parts_total_witness :
  reachable count_cut (scenario_child count_cut)
  ∧ Forall (λ e, is_Ok (crosses_parts (scenario_child count_cut) e))
      (edges (graph (state (scenario_child count_cut)))).
Proof.
  split; [apply scenario_child_reachable|].
  exact (proj2 (reachable_crosses_parts_total count_cut _
                  (scenario_child_reachable count_cut))).
Defined.

(** X15 on the root of the end-to-end scenario. *)
Lemma reachable_truthy_iff_nodes_witness :
  reachable count_cut (scenario_root count_cut)
  ∧ assignment (state (scenario_root count_cut)) ≠ [].
Proof.
  split; [apply scenario_root_reachable|].
  apply (reachable_truthy_iff_nodes count_cut _ (scenario_root_reachable count_cut)).
  apply scenario_root_truthy.
Defined.

(** X16 on the root of the end-to-end scenario. *)
Lemma root_parts_inverse_image_witness :
  __init__ count_cut (Some path4) (Some "district"%string) None None None
    = (None, Ok (scenario_root count_cut))
  ∧ items (parts (state (scenario_root count_cut)))
    = inverse_image_index (assignment (state (scenario_root count_cut))).
Proof.
  split; [apply scenario_root_built|].
  exact (proj1 (root_parts_inverse_image count_cut _ _ _ _
                  (scenario_root_built count_cut))).
Defined.

(** X17 on the root of the end-to-end scenario: the flip {2: "B"}, then the
    flip {3: "B"}, against both at once. *)
Lemma merge_composes_witness :
  well_formed count_cut (scenario_root count_cut)
  ∧ flip_set (assignment (state (scenario_root count_cut)))
      ([(2, VStr "B")] ++ [(3, VStr "B")])
  ∧ succeeded (merge count_cut (scenario_root count_cut) [(2, VStr "B")]).2 = true
  ∧ succeeded (merge count_cut (scenario_first count_cut) [(3, VStr "B")]).2 = true
  ∧ succeeded (merge count_cut (scenario_root count_cut)
                 ([(2, VStr "B")] ++ [(3, VStr "B")])).2 = true
  ∧ assignment (state (scenario_second count_cut))
    = assignment (state (scenario_child count_cut))
  ∧ items (parts (state (scenario_second count_cut)))
    = items (parts (state (scenario_child count_cut))).
Proof.
  pose proof (reachable_well_formed count_cut _ (scenario_root_reachable count_cut))
    as Hwf.
  split; [exact Hwf|]. split; [apply scenario_flip_set|].
  split; [by rewrite scenario_first_built|].
  split; [by rewrite scenario_second_built|].
  split; [by rewrite scenario_both_built|].
  exact (merge_composes count_cut _ [(2, VStr "B")] [(3, VStr "B")] _ _ _ _ _ _
           Hwf (scenario_flip_set count_cut) (scenario_first_built count_cut)
           (scenario_second_built count_cut) (scenario_both_built count_cut)).
Defined.

(** X18 on the child of the end-to-end scenario. *)
Lemma reachable_max_edge_cuts_witness :
  reachable count_cut (scenario_child count_cut)
  ∧ max_edge_cuts (state (scenario_child count_cut))
    = rundmcmc_proposals.max_edge_cuts count_cut
        (graph (state (scenario_child count_cut)))
        (assignment (state (scenario_child count_cut))).
Proof.
  split; [apply scenario_child_reachable|].
  exact (proj1 (reachable_max_edge_cuts count_cut _
                  (scenario_child_reachable count_cut))).
Defined.

(** X19 on the root of the scenario built with the registry
    {"population": ...}. *)
Lemma root_cache_current_witness :
  __init__ count_cut (Some path4) (Some "district"%string)
    (Some population_registry) None None
    = (None, Ok (scenario_registry_root count_cut))
  ∧ _cache (scenario_registry_root count_cut)
    = (λ f, f (state (scenario_registry_root count_cut)))
        <$> updaters (scenario_registry_root count_cut).
Proof.
  split; [apply scenario_registry_root_init|].
  exact (proj1 (root_cache_current count_cut _ _ _ _
                  (scenario_registry_root_init count_cut))).
Defined.

(** X21 on the root over the graph without nodes. *)
Lemma reachable_repr_zero_witness :
  reachable count_cut (scenario_empty_root count_cut)
  ∧ __repr__ (scenario_empty_root count_cut)
    = "Partition of a graph into 0 part"%string.
Proof.
  split; [apply scenario_empty_root_reachable|].
  apply (reachable_repr_zero count_cut _ (scenario_empty_root_reachable count_cut)).
  reflexivity.
Defined.
